(** * Lavalink.py: the connection channel and the player state machines

  A shallow embedding of [lavalink/websocket.py], [lavalink/models.py]
  and [lavalink/ext/players/AdvancedPlayer.py].

  Conventions of the embedding.
  - Every [await]ed call is run to completion before the next statement:
    the development describes one task, as the code is written.
  - Network and manager calls leave a mark in an explicit trace, in
    program order.  The trace is the only observation of the outside
    world.
  - Milliseconds (durations, positions, clock readings) are integers.
  - Equalizer gains are Python floats.  The code only compares them and
    selects one of the compared values, so finite floats are embedded as
    rationals and no rounding takes place. *)

From Stdlib Require Import ZArith QArith List String Bool Lia Lqa.
From stdpp Require Import base option list strings gmap.

Import ListNotations.
Local Open Scope Z_scope.

(** ** Wire messages

  The keyword arguments given to [_send].  The options of [play] are
  optional keys of the dictionary; a band of an equalizer payload is a
  [{'band': b, 'gain': g}] entry. *)

Inductive payload : Type :=
| OpPlay (guildId : string) (track : string)
         (startTime endTime : option Z) (noReplace : option bool)
| OpStop (guildId : string)
| OpPause (guildId : string) (pause : bool)
| OpSeek (guildId : string) (position : Z)
| OpVolume (guildId : string) (volume : Z)
| OpEqualizer (guildId : string) (bands : list (Z * Q))
| OpVoiceUpdate (guildId : string) (voice : gmap string string)
| OpDestroy (guildId : string)
| OpConfigureResuming (key : string) (timeout : Z).

(** Python's [min] and [max] on two arguments keep the first one unless the
  second is strictly smaller (resp. greater); [Qltb] is [<] on floats. *)

Definition py_min (a b : Z) : Z := if b <? a then b else a.

Definition Qltb (a b : Q) : bool := negb (Qle_bool b a).
Definition py_minQ (a b : Q) : Q := if Qltb b a then b else a.
Definition py_maxQ (a b : Q) : Q := if Qltb a b then b else a.

(** * The connection channel: [lavalink/websocket.py] *)

Module WebSocket.

(** The aiohttp socket; only its [closed] flag is read. *)
Record socket : Type := Socket { closed : bool }.

Record t : Type := Mk {
  ws : option socket;
  message_queue : list payload;
  resume_key : option string;
  resume_timeout : option Z;
  resuming_configured : bool
}.

Inductive warning : Type :=
| FailedToEstablish
| MaybeNotRunning
| AuthenticationFailed
| UnexpectedCode (status : Z).

(** What the channel does to the outside world.  [NodeConnect] and
    [NodeDisconnect] are the manager's hooks [_node_connect] and
    [_node_disconnect]; the manager is not among the sources and its hooks
    are taken as notifications, which send nothing on the channel.
    [Listen] is the start of the read loop. *)
Inductive action : Type :=
| WsConnect (resume_header : option string)
| Warning (w : warning)
| Sleep (backoff : Z)
| NodeConnect
| NodeDisconnect (code : option Z) (reason : option string)
| Listen
| SendJson (data : payload).

(** The ways [session.ws_connect] ends that [connect] handles. *)
Inductive outcome : Type :=
| Established
| ClientConnectorError
| WSServerHandshakeError (status : Z).

Definition world : Type := (t * list action)%type.

Definition connected (s : t) : bool :=
  match ws s with
  | Some sock => negb (closed sock)
  | None => false
  end.

(** Truth value of [self._resume_key]: a non-empty string. *)
Definition truthy_key (k : option string) : option string :=
  match k with
  | Some EmptyString => None
  | other => other
  end.

Definition _send (data : payload) (w : world) : world :=
  let '(s, tr) := w in
  if connected s then (s, tr ++ [SendJson data])
  else (Mk (ws s) (message_queue s ++ [data]) (resume_key s)
           (resume_timeout s) (resuming_configured s), tr).

(** [for message in msgs: await self._send] *)
Definition send_all (msgs : list payload) (w : world) : world :=
  fold_left (fun acc m => _send m acc) msgs w.

(** The [Resume-Key] header, set once before the loop. *)
Definition resume_header (s : t) : option string :=
  if resuming_configured s then truthy_key (resume_key s) else None.

(** The [configureResuming] message that a successful connect owes. *)
Definition resume_request (s : t) : option payload :=
  if resuming_configured s then None
  else match truthy_key (resume_key s), resume_timeout s with
       | Some k, Some tmo =>
           if (negb (tmo =? 0)) && (0 <? tmo)
           then Some (OpConfigureResuming k tmo) else None
       | _, _ => None
       end.

Definition set_ws (o : option socket) (s : t) : t :=
  Mk o (message_queue s) (resume_key s) (resume_timeout s)
     (resuming_configured s).

Definition set_resuming_configured (s : t) : t :=
  Mk (ws s) (message_queue s) (resume_key s) (resume_timeout s) true.

Definition clear_queue (s : t) : t :=
  Mk (ws s) [] (resume_key s) (resume_timeout s) (resuming_configured s).

Definition emit (a : action) (w : world) : world := (fst w, snd w ++ [a]).

(** The [else] branch of the [try]: the socket is live. *)
Definition on_established (w : world) : world :=
  let w := emit NodeConnect w in
  let w := emit Listen w in
  let w :=
    match resume_request (fst w) with
    | Some req =>
        let w := _send req w in
        (set_resuming_configured (fst w), snd w)
    | None => w
    end in
  match message_queue (fst w) with
  | [] => w
  | queued =>
      let w := send_all queued w in
      (clear_queue (fst w), snd w)
  end.

(** The [except] branch.  The boolean tells whether the handler left
    the function through its [return]. *)
Definition on_failure (attempt : Z) (o : outcome) (w : world)
  : bool * world :=
  let '(returned, w) :=
    if attempt =? 1 then
      let w := emit (Warning FailedToEstablish) w in
      match o with
      | ClientConnectorError => (false, emit (Warning MaybeNotRunning) w)
      | WSServerHandshakeError status =>
          if status =? 401
          then (true, emit (Warning AuthenticationFailed) w)
          else if negb (status =? 101)
               then (false, emit (Warning (UnexpectedCode status)) w)
               else (false, w)
      | Established => (false, w)
      end
    else (false, w) in
  if returned then (true, w)
  else (false, emit (Sleep (py_min (10 * attempt) 60)) w).

(** How a run of [connect] against a finite script of outcomes ends:
    the loop was left, the function returned from inside the handler,
    or the script ran out while the loop was still retrying. *)
Inductive ending : Type := LoopLeft | Returned | Retrying.

(** The [while not self.connected] loop; [attempt] is the value of the
    local counter when the condition is tested. *)
Fixpoint connect_loop (hdr : option string) (script : list outcome)
         (attempt : Z) (w : world) : ending * world :=
  if connected (fst w) then (LoopLeft, w)
  else
    match script with
    | [] => (Retrying, w)
    | o :: script' =>
        let attempt := attempt + 1 in
        let w := emit (WsConnect hdr) w in
        match o with
        | Established =>
            let w := (set_ws (Some (Socket false)) (fst w), snd w) in
            connect_loop hdr script' attempt (on_established w)
        | _ =>
            let '(returned, w) := on_failure attempt o w in
            if returned then (Returned, w)
            else connect_loop hdr script' attempt w
        end
    end.

Definition connect (script : list outcome) (w : world) : ending * world :=
  connect_loop (resume_header (fst w)) script 0 w.

(** [_websocket_closed]: the handle is dropped, the manager is told, and
    the channel connects again. *)
Definition _websocket_closed (code : option Z) (reason : option string)
           (script : list outcome) (w : world) : ending * world :=
  let w := (set_ws None (fst w), snd w) in
  let w := emit (NodeDisconnect code reason) w in
  connect script w.

(** Observations on a trace. *)
Definition transmitted (tr : list action) : list payload :=
  omap (fun a => match a with SendJson d => Some d | _ => None end) tr.

Definition is_attempt (a : action) : bool :=
  match a with WsConnect _ => true | _ => false end.

Definition attempts (tr : list action) : nat :=
  length (filter (fun a => is_attempt a = true) tr).

(** ** Vocabulary of the statements about the channel *)

Definition set_queue (q : list payload) (s : t) : t :=
  Mk (ws s) q (resume_key s) (resume_timeout s) (resuming_configured s).

Definition is_failure (o : outcome) : bool :=
  match o with Established => false | _ => true end.

Definition is_auth_rejection (o : outcome) : bool :=
  match o with
  | WSServerHandshakeError status => status =? 401
  | _ => false
  end.

(** A run of failed attempts that the handler does not return from;
    [attempt] is the counter before the first of them. *)
Fixpoint retryable (attempt : Z) (fs : list outcome) : bool :=
  match fs with
  | [] => true
  | o :: fs' =>
      is_failure o
      && negb ((attempt + 1 =? 1) && is_auth_rejection o)
      && retryable (attempt + 1) fs'
  end.

Definition resume_list (s : t) : list payload :=
  option_list (resume_request s).

(** The channel after a successful connect. *)
Definition established_state (s : t) : t :=
  Mk (Some (Socket false)) [] (resume_key s) (resume_timeout s)
     (resuming_configured s || bool_decide (is_Some (resume_request s))).

(** The flush as the specification words it: [connect] succeeds and
    what is transmitted from then on starts with the buffered messages,
    in their order. *)
Definition buffer_flushed_first (script : list outcome) (w : world) : Prop :=
  let r := connect script w in
  fst r = LoopLeft
  /\ exists later,
      transmitted (snd (snd r))
      = transmitted (snd w) ++ message_queue (fst w) ++ later.

End WebSocket.

(** * Players: [lavalink/models.py] *)

(** [AudioTrack]: the fields read from the node's track data and the
  requester; the caller's [extra] attributes play no part here. *)
Record AudioTrack : Type := MkTrack {
  track : string;
  identifier : string;
  is_seekable : bool;
  author : string;
  duration : Z;
  stream : bool;
  title : string;
  uri : string;
  requester : Z
}.

(** Modelled from the spec: [lavalink/node.py] is not among the sources.
  A node is known to the players by its name and its [available] flag;
  its [_send] and [_dispatch_event] are the two marks of [effect]
  below. *)
Record Node : Type := MkNode {
  name : string;
  available : bool
}.

(** Modelled from the spec: [lavalink/events.py] is not among the sources.
  Each event carries the arguments its constructor is called with; the
  player argument is represented by its guild id. *)
Inductive event : Type :=
| TrackStartEvent (player : string) (tr : AudioTrack)
| TrackEndEvent (player : string) (tr : option AudioTrack) (reason : string)
| TrackStuckEvent (player : string) (tr : option AudioTrack) (threshold : Z)
| TrackExceptionEvent (player : string) (tr : option AudioTrack)
                      (exception : string)
| WebSocketClosedEvent (player : string) (code : Z) (reason : string)
                       (by_remote : bool)
| QueueEndEvent (player : string)
| NodeChangedEvent (player : string) (old_node new_node : Node)
| PlayerUpdateEvent (player : string) (position timestamp : Z).

(** What a player does to the outside world: [node._send] and
  [node._dispatch_event], with the node they are called on. *)
Inductive effect : Type :=
| Send (on : Node) (data : payload)
| Dispatch (on : Node) (ev : event).

(** ** Commands that may raise

  A command runs on the player and the trace and either returns or
  raises; the state reached is kept in both cases, as an exception does
  not undo the assignments made before it. *)

Inductive exn : Type := ValueError | IndexError | TypeError.

Inductive result (A : Type) : Type :=
| Return (a : A)
| Raise (e : exn).
Arguments Return {A} a.
Arguments Raise {A} e.

Definition M (S A : Type) : Type :=
  S * list effect -> result A * (S * list effect).

#[export] Instance M_ret {S} : MRet (M S) :=
  fun A a w => (Return a, w).

#[export] Instance M_bind {S} : MBind (M S) :=
  fun A B f m w =>
    match m w with
    | (Return a, w') => f a w'
    | (Raise e, w') => (Raise e, w')
    end.

Definition raise {S A} (e : exn) : M S A := fun w => (Raise e, w).
Definition get {S} : M S S := fun w => (Return (fst w), w).
Definition modify {S} (f : S -> S) : M S unit :=
  fun w => (Return tt, (f (fst w), snd w)).
Definition tell {S} (e : effect) : M S unit :=
  fun w => (Return tt, (fst w, snd w ++ [e])).
Definition when {S} (b : bool) (m : M S unit) : M S unit :=
  if b then m else mret tt.

(** [l[i] = x] on a Python list: negative indices count from the end,
  anything else out of range raises [IndexError] ([None] here). *)
Definition list_setitem {A} (l : list A) (i : Z) (x : A) : option (list A) :=
  let n := Z.of_nat (length l) in
  if (0 <=? i) && (i <? n) then Some (<[Z.to_nat i := x]> l)
  else if (- n <=? i) && (i <? 0) then Some (<[Z.to_nat (n + i) := x]> l)
  else None.

(** [enumerate(l)] *)
Definition enumerate {A} (l : list A) : list (Z * A) :=
  imap (fun i x => (Z.of_nat i, x)) l.

(** Truth value of a float: anything but zero. *)
Definition truthyQ (g : Q) : bool := negb (Qeq_bool g 0).

(** [max(min(float(gain), 1.0), -0.25)] *)
Definition clamp_gain (gain : Q) : Q := py_maxQ (py_minQ gain 1) (- (1 # 4)).

Module BasicPlayer.

Record t : Type := Mk {
  guild_id : string;
  node : Node;
  _original_node : option Node;
  _voice_state : gmap string string;
  channel_id : option Z;
  volume : Z;
  paused : bool;
  equalizer : list Q;
  current : option AudioTrack;
  (* The three anchors are first assigned by [play] or [_update_state];
     they are read only while a track is current. *)
  _last_update : Z;
  _last_position : Z;
  position_timestamp : Z
}.

Definition init (guild : string) (n : Node) : t :=
  Mk guild n None ∅ None 100 false (replicate 15 0%Q) None 0 0 0.

Definition set_node (n : Node) (p : t) : t :=
  Mk (guild_id p) n (_original_node p) (_voice_state p) (channel_id p)
     (volume p) (paused p) (equalizer p) (current p)
     (_last_update p) (_last_position p) (position_timestamp p).

Definition set_voice_state (v : gmap string string) (p : t) : t :=
  Mk (guild_id p) (node p) (_original_node p) v (channel_id p)
     (volume p) (paused p) (equalizer p) (current p)
     (_last_update p) (_last_position p) (position_timestamp p).

Definition set_channel_id (c : option Z) (p : t) : t :=
  Mk (guild_id p) (node p) (_original_node p) (_voice_state p) c
     (volume p) (paused p) (equalizer p) (current p)
     (_last_update p) (_last_position p) (position_timestamp p).

Definition set_volume_field (v : Z) (p : t) : t :=
  Mk (guild_id p) (node p) (_original_node p) (_voice_state p)
     (channel_id p) v (paused p) (equalizer p) (current p)
     (_last_update p) (_last_position p) (position_timestamp p).

Definition set_paused (b : bool) (p : t) : t :=
  Mk (guild_id p) (node p) (_original_node p) (_voice_state p)
     (channel_id p) (volume p) b (equalizer p) (current p)
     (_last_update p) (_last_position p) (position_timestamp p).

Definition set_equalizer (e : list Q) (p : t) : t :=
  Mk (guild_id p) (node p) (_original_node p) (_voice_state p)
     (channel_id p) (volume p) (paused p) e (current p)
     (_last_update p) (_last_position p) (position_timestamp p).

Definition set_current (c : option AudioTrack) (p : t) : t :=
  Mk (guild_id p) (node p) (_original_node p) (_voice_state p)
     (channel_id p) (volume p) (paused p) (equalizer p) c
     (_last_update p) (_last_position p) (position_timestamp p).

Definition set_last_update (u : Z) (p : t) : t :=
  Mk (guild_id p) (node p) (_original_node p) (_voice_state p)
     (channel_id p) (volume p) (paused p) (equalizer p) (current p)
     u (_last_position p) (position_timestamp p).

Definition set_last_position (u : Z) (p : t) : t :=
  Mk (guild_id p) (node p) (_original_node p) (_voice_state p)
     (channel_id p) (volume p) (paused p) (equalizer p) (current p)
     (_last_update p) u (position_timestamp p).

Definition set_position_timestamp (u : Z) (p : t) : t :=
  Mk (guild_id p) (node p) (_original_node p) (_voice_state p)
     (channel_id p) (volume p) (paused p) (equalizer p) (current p)
     (_last_update p) (_last_position p) u.

(** [self.node._send(...)] and [self.node._dispatch_event(...)] *)
Definition send (data : payload) : M t unit :=
  p ← get; tell (Send (node p) data).

Definition dispatch (ev : event) : M t unit :=
  p ← get; tell (Dispatch (node p) ev).

Definition is_connected (p : t) : bool := bool_decide (is_Some (channel_id p)).

Definition is_playing (p : t) : bool :=
  is_connected p && bool_decide (is_Some (current p)).

(** The [position] property; [now] is [time() * 1000].  Without a
    current track [is_playing] is false, so the first [return] is taken;
    the outer [match] only names the track whose duration is read. *)
Definition position (now : Z) (p : t) : Z :=
  match current p with
  | Some cur =>
      if negb (is_playing p) then 0
      else if paused p then py_min (_last_position p) (duration cur)
      else
        let difference := now - _last_update p in
        py_min (_last_position p + difference) (duration cur)
  | None => 0
  end.

Definition _update_state (now : Z) (pos time : option Z) : M t unit :=
  modify (set_last_update now);;
  modify (set_last_position (default 0 pos));;
  modify (set_position_timestamp (default 0 time));;
  p ← get;
  dispatch (PlayerUpdateEvent (guild_id p) (_last_position p)
                              (position_timestamp p)).

Definition _dispatch_voice_update : M t unit :=
  p ← get;
  when (bool_decide (dom (_voice_state p) = {["sessionId"; "event"]}))
       (send (OpVoiceUpdate (guild_id p) (_voice_state p))).

Definition _voice_server_update (data : string) : M t unit :=
  modify (fun p => set_voice_state (<["event" := data]> (_voice_state p)) p);;
  _dispatch_voice_update.

(** [data['session_id']] and [data['channel_id']]; a channel id that is
    [None] or [0] is false. *)
Definition _voice_state_update (session_id : string) (chan : option Z)
  : M t unit :=
  modify (fun p =>
            set_voice_state (<["sessionId" := session_id]> (_voice_state p)) p);;
  modify (set_channel_id chan);;
  match chan with
  | None | Some 0 => modify (set_voice_state ∅)
  | Some _ => _dispatch_voice_update
  end.

Definition is_terminal (ev : event) : bool :=
  match ev with
  | TrackStuckEvent _ _ _ | TrackExceptionEvent _ _ _ => true
  | TrackEndEvent _ _ reason => bool_decide (reason = "FINISHED")
  | _ => false
  end.

Definition _handle_event (ev : event) : M t unit :=
  when (is_terminal ev) (modify (set_current None)).

(** [now] is the clock read by [self.position], [now'] the one read for
    the new anchor. *)
Definition change_node (new : Node) (now now' : Z) : M t unit :=
  p ← get;
  when (available (node p)) (send (OpDestroy (guild_id p)));;
  let old_node := node p in
  modify (set_node new);;
  when (negb (bool_decide (_voice_state p = ∅))) _dispatch_voice_update;;
  match current p with
  | Some cur =>
      send (OpPlay (guild_id p) (track cur) (Some (position now p))
                   None None);;
      modify (set_last_update now');;
      when (paused p) (send (OpPause (guild_id p) (paused p)))
  | None => mret tt
  end;;
  when (negb (volume p =? 100)) (send (OpVolume (guild_id p) (volume p)));;
  when (existsb truthyQ (equalizer p))
       (send (OpEqualizer (guild_id p) (enumerate (equalizer p))));;
  dispatch (NodeChangedEvent (guild_id p) old_node new).

Definition play (tr : AudioTrack) (start_time end_time : Z)
           (no_replace : bool) : M t unit :=
  modify (set_last_update 0);;
  modify (set_last_position 0);;
  modify (set_position_timestamp 0);;
  modify (set_paused false);;
  modify (set_current (Some tr));;
  p ← get;
  send (OpPlay (guild_id p) (track tr) (Some start_time) (Some end_time)
               (Some no_replace));;
  dispatch (TrackStartEvent (guild_id p) tr).

Definition stop : M t unit :=
  p ← get;
  send (OpStop (guild_id p));;
  modify (set_current None).

Definition set_pause (pause : bool) : M t unit :=
  p ← get;
  send (OpPause (guild_id p) pause);;
  modify (set_paused pause).

Definition set_volume (vol : Z) : M t unit :=
  p ← get;
  send (OpVolume (guild_id p) (volume p));;
  modify (set_volume_field vol).

Definition seek (pos : Z) : M t unit :=
  p ← get;
  send (OpSeek (guild_id p) pos).

(** [self.equalizer[band] = gain] *)
Definition assign_band (band : Z) (gain : Q) : M t unit :=
  p ← get;
  match list_setitem (equalizer p) band gain with
  | Some e => modify (set_equalizer e)
  | None => raise IndexError
  end.

(** The [for] loop of [set_gains]; the entries are [(band, gain)]
    tuples, so the [isinstance] test passes. *)
Fixpoint gains_loop (gain_list : list (Z * Q)) (update_package : list (Z * Q))
  : M t (list (Z * Q)) :=
  match gain_list with
  | [] => mret update_package
  | (band, gain) :: rest =>
      let gain := clamp_gain gain in
      assign_band band gain;;
      gains_loop rest (update_package ++ [(band, gain)])
  end.

Definition set_gains (gain_list : list (Z * Q)) : M t unit :=
  update_package ← gains_loop gain_list [];
  p ← get;
  send (OpEqualizer (guild_id p) update_package).

End BasicPlayer.

(** * The queueing player: [lavalink/ext/players/AdvancedPlayer.py] *)

Module AdvancedPlayer.

(** [AdvancedPlayer] extends [BasicPlayer]: the inherited part is the
    field [base]. *)
Record t : Type := Mk {
  base : BasicPlayer.t;
  _user_data : gmap string string;
  shuffle : bool;
  repeat : bool;
  (* a [collections.deque], left end first *)
  queue : list AudioTrack
}.

Definition init (guild : string) (n : Node) : t :=
  Mk (BasicPlayer.init guild n) ∅ false false [].

Definition set_base (b : BasicPlayer.t) (p : t) : t :=
  Mk b (_user_data p) (shuffle p) (repeat p) (queue p).

Definition set_user_data (d : gmap string string) (p : t) : t :=
  Mk (base p) d (shuffle p) (repeat p) (queue p).

Definition set_queue (q : list AudioTrack) (p : t) : t :=
  Mk (base p) (_user_data p) (shuffle p) (repeat p) q.

(** An inherited method runs on the inherited fields. *)
Definition lift {A} (m : M BasicPlayer.t A) : M t A :=
  fun w =>
    let '(r, (b, tr)) := m (base (fst w), snd w) in
    (r, (set_base b (fst w), tr)).

Definition send (data : payload) : M t unit := lift (BasicPlayer.send data).
Definition dispatch (ev : event) : M t unit := lift (BasicPlayer.dispatch ev).
Definition stop : M t unit := lift BasicPlayer.stop.
Definition set_volume (vol : Z) : M t unit := lift (BasicPlayer.set_volume vol).
Definition change_node (new : Node) (now now' : Z) : M t unit :=
  lift (BasicPlayer.change_node new now now').
Definition position (now : Z) (p : t) : Z := BasicPlayer.position now (base p).

Definition cleanup : M t unit :=
  modify (set_queue []);;
  modify (set_user_data ∅).

Definition store (key value : string) : M t unit :=
  modify (fun p => set_user_data (<[key := value]> (_user_data p)) p).

Definition fetch (key : string) (default : option string) (p : t)
  : option string :=
  match _user_data p !! key with
  | Some v => Some v
  | None => default
  end.

Definition delete (key : string) : M t unit :=
  modify (fun p => set_user_data (base.delete key (_user_data p)) p).

(** [deque.insert(i, x)]: the index is clipped to the deque. *)
Definition deque_insert {A} (i : Z) (x : A) (q : list A) : list A :=
  let n := Z.of_nat (length q) in
  let i := if i <? 0 then Z.max 0 (i + n) else Z.min i n in
  take (Z.to_nat i) q ++ x :: drop (Z.to_nat i) q.

Definition add (at_ : AudioTrack) (index : option Z) : M t unit :=
  modify (fun p =>
            match index with
            | None => set_queue (queue p ++ [at_]) p
            | Some i => set_queue (deque_insert i at_ (queue p)) p
            end).

(** [collections.deque.pop] takes no argument and removes the
    right-most element ([IndexError] on an empty deque).  Called with a
    positional argument it raises [TypeError] and leaves the deque as it
    is. *)
Definition deque_pop (args : list Z) : M t AudioTrack :=
  match args with
  | [] =>
      p ← get;
      match reverse (queue p) with
      | x :: rest => modify (set_queue (reverse rest));; mret x
      | [] => raise IndexError
      end
  | _ :: _ => raise TypeError
  end.

(** The range test of [play] on [start_time] and on [end_time]:
    [0 > x > track.duration] is the chained comparison
    [0 > x and x > track.duration]. *)
Definition time_option (x : Z) (tr : AudioTrack) : M t (option Z) :=
  if negb (x =? 0) then
    if (x <? 0) && (duration tr <? x) then raise ValueError
    else mret (Some x)
  else mret None.

(** [self.current] when [self.repeat and self.current] holds. *)
Definition current_to_repeat (p : t) : option AudioTrack :=
  if repeat p then BasicPlayer.current (base p) else None.

(** [play]; a track given as a dictionary has been turned into an
    [AudioTrack] by the constructor, and [draw] is the value that
    [randrange(len(self.queue))] returns when it is called. *)
Definition play (tr : option AudioTrack) (start_time end_time : Z)
           (no_replace : bool) (draw : Z) : M t unit :=
  p ← get;
  match current_to_repeat p with
  | Some cur => modify (set_queue (queue p ++ [cur]))
  | None => mret tt
  end;;
  lift (modify (BasicPlayer.set_last_update 0));;
  lift (modify (BasicPlayer.set_last_position 0));;
  lift (modify (BasicPlayer.set_position_timestamp 0));;
  lift (modify (BasicPlayer.set_paused false));;
  chosen ←
    match tr with
    | Some given => mret (Some given)
    | None =>
        p ← get;
        match queue p with
        | [] =>
            stop;;  (* Also sets current to None. *)
            dispatch (QueueEndEvent (BasicPlayer.guild_id (base p)));;
            mret None
        | _ :: _ =>
            let pop_at := if shuffle p then draw else 0 in
            popped ← deque_pop [pop_at];
            mret (Some popped)
        end
    end;
  match chosen with
  | None => mret tt
  | Some tr =>
      p ← get;
      startTime ← time_option start_time tr;
      endTime ← time_option end_time tr;
      let noReplace := if no_replace then Some no_replace else None in
      lift (modify (BasicPlayer.set_current (Some tr)));;
      send (OpPlay (BasicPlayer.guild_id (base p)) (track tr)
                   startTime endTime noReplace);;
      dispatch (TrackStartEvent (BasicPlayer.guild_id (base p)) tr)
  end.

(** The [for] loop of [set_gains], with its test on the band. *)
Fixpoint gains_loop (gain_list : list (Z * Q)) (update_package : list (Z * Q))
  : M t (list (Z * Q)) :=
  match gain_list with
  | [] => mret update_package
  | (band, gain) :: rest =>
      if negb ((-1 <? band) && (band <? 15)) then raise IndexError
      else
        let gain := clamp_gain gain in
        lift (BasicPlayer.assign_band band gain);;
        gains_loop rest (update_package ++ [(band, gain)])
  end.

Definition set_gains (gain_list : list (Z * Q)) : M t unit :=
  update_package ← gains_loop gain_list [];
  p ← get;
  send (OpEqualizer (BasicPlayer.guild_id (base p)) update_package).

Definition set_gain (band : Z) (gain : Q) : M t unit :=
  set_gains [(band, gain)].

Definition reset_equalizer : M t unit :=
  set_gains (map (fun x => (Z.of_nat x, 0%Q)) (seq 0 15)).

Definition _handle_event (ev : event) (draw : Z) : M t unit :=
  when (BasicPlayer.is_terminal ev) (play None 0 0 false draw).

End AdvancedPlayer.

(** * Vocabulary of the statements about players *)

(** The messages of a trace, each with the node it was sent on. *)
Definition commands (tr : list effect) : list (Node * payload) :=
  omap (fun e => match e with Send n d => Some (n, d) | _ => None end) tr.

Definition is_play (c : Node * payload) : bool :=
  match snd c with OpPlay _ _ _ _ _ => true | _ => false end.
Definition is_stop (c : Node * payload) : bool :=
  match snd c with OpStop _ => true | _ => false end.
Definition is_pause (c : Node * payload) : bool :=
  match snd c with OpPause _ _ => true | _ => false end.
Definition is_volume (c : Node * payload) : bool :=
  match snd c with OpVolume _ _ => true | _ => false end.
Definition is_equalizer (c : Node * payload) : bool :=
  match snd c with OpEqualizer _ _ => true | _ => false end.

(** The commands of a trace that satisfy [kind]. *)
Definition only (kind : Node * payload -> bool) (tr : list effect)
  : list (Node * payload) :=
  List.filter kind (commands tr).

(** The bands of the equalizer. *)
Definition valid_band (band : Z) : Prop := 0 <= band <= 14.

(** The equalizer array that the specification asks for after a batch:
  each entry, in order, stores its gain clamped at its band. *)
Definition apply_gains (gain_list : list (Z * Q)) (e : list Q) : list Q :=
  fold_left (fun acc bg => <[Z.to_nat (fst bg) := clamp_gain (snd bg)]> acc)
            gain_list e.

(** The gain of the last entry of a batch for band [i], if any. *)
Definition last_gain (i : nat) (gain_list : list (Z * Q)) : option Q :=
  fold_left (fun acc bg => if Z.to_nat (fst bg) =? i then Some (snd bg) else acc)%nat
            gain_list None.

(** The [bands] of the equalizer message of a batch. *)
Definition package (gain_list : list (Z * Q)) : list (Z * Q) :=
  map (fun bg => (fst bg, clamp_gain (snd bg))) gain_list.

(** The player with the equalizer that a batch leaves. *)
Definition stored (gain_list : list (Z * Q)) (p : BasicPlayer.t)
  : BasicPlayer.t :=
  BasicPlayer.set_equalizer (apply_gains gain_list (BasicPlayer.equalizer p)) p.

(** ** Sample data for the worked examples *)

(** A channel that is down, with one message buffered and a resume key
    whose configuration is still due. *)
Definition resuming_channel : WebSocket.t :=
  WebSocket.Mk None [OpStop "1"] (Some "key"%string) (Some 60) false.

(** A channel that is down and has nothing to resume. *)
Definition plain_channel : WebSocket.t :=
  WebSocket.Mk None [] None None false.

Definition main_node : Node := MkNode "main" true.
Definition spare_node : Node := MkNode "spare" true.

(** A track of 200000 ms. *)
Definition song : AudioTrack :=
  MkTrack "QAAAjQIAJVJpY2s" "dQw4w9WgXcQ" true "Rick" 200000 false
          "Never" "https://example.org/dQw4w9WgXcQ" 7.

Definition other_song : AudioTrack :=
  MkTrack "QAAAkLMNOPQRSTU" "oHg5SJYRHA0" true "Roll" 180000 false
          "Again" "https://example.org/oHg5SJYRHA0" 7.

(** A queueing player on [song] with [repeat] set and nothing queued. *)
Definition repeating_player : AdvancedPlayer.t :=
  AdvancedPlayer.Mk
    (BasicPlayer.set_current (Some song) (BasicPlayer.init "1" main_node))
    ∅ false true [].

(** A queueing player on [song] with [other_song] queued. *)
Definition queued_player : AdvancedPlayer.t :=
  AdvancedPlayer.Mk
    (BasicPlayer.set_current (Some song) (BasicPlayer.init "1" main_node))
    ∅ false false [other_song].

(** A player heard in voice channel 5, paused 90 s into [song], with the
    volume and one band changed. *)
Definition tuned_player : BasicPlayer.t :=
  BasicPlayer.Mk "1" main_node None ∅ (Some 5) 80 true
                 (<[3%nat := (1 # 4)%Q]> (replicate 15 0%Q)) (Some song)
                 1000 90000 0.

(** * More of the code *)

(** ** More observations on the channel's trace *)

Definition sleeps (tr : list WebSocket.action) : list Z :=
  omap (fun a => match a with WebSocket.Sleep b => Some b | _ => None end) tr.

Definition warnings (tr : list WebSocket.action) : list WebSocket.warning :=
  omap (fun a => match a with WebSocket.Warning w => Some w | _ => None end) tr.

(** The [Resume-Key] header of each attempt. *)
Definition headers (tr : list WebSocket.action) : list (option string) :=
  omap (fun a => match a with WebSocket.WsConnect h => Some h | _ => None end)
       tr.

(** The waits after attempts [attempt + 1], ..., [attempt + n]. *)
Definition backoffs (attempt : Z) (n : nat) : list Z :=
  map (fun k => Z.min (10 * (attempt + Z.of_nat k)) 60) (seq 1 n).

(** ** [AudioTrack.__init__]

    The dictionary that the node sends for a track has the keys ['track']
    and ['info'], the latter a dictionary of its own.  The constructor
    reads the keys in the order of its assignments and turns the first
    [KeyError] into [InvalidTrack], with the key that was missing.  A key
    that is absent is [None]; the values have the types the node gives
    them. *)

Module Track.

Record info : Type := MkInfo {
  identifier : option string;
  isSeekable : option bool;
  author : option string;
  length : option Z;
  isStream : option bool;
  title : option string;
  uri : option string
}.

Record data : Type := MkData {
  track : option string;
  info_ : option info
}.

Inductive built : Type :=
| Built (t : AudioTrack)
| InvalidTrack (missing_key : string).

(** [d[k]], with the rest of the constructor as continuation. *)
Definition item {A} (k : string) (v : option A) (rest : A -> built) : built :=
  match v with
  | Some a => rest a
  | None => InvalidTrack k
  end.

Definition __init__ (d : data) (requester : Z) : built :=
  item "track" (track d) (fun tk =>
  item "info" (info_ d) (fun i =>
  item "identifier" (identifier i) (fun ident =>
  item "info" (info_ d) (fun i =>
  item "isSeekable" (isSeekable i) (fun seekable =>
  item "info" (info_ d) (fun i =>
  item "author" (author i) (fun auth =>
  item "info" (info_ d) (fun i =>
  item "length" (length i) (fun len =>
  item "info" (info_ d) (fun i =>
  item "isStream" (isStream i) (fun strm =>
  item "info" (info_ d) (fun i =>
  item "title" (title i) (fun ttl =>
  item "info" (info_ d) (fun i =>
  item "uri" (uri i) (fun u =>
  Built (MkTrack tk ident seekable auth len strm ttl u requester)))))))))))))))).

(** The keys of a track dictionary that are absent, in the order in which
    the constructor reads them. *)
Definition absent {A} (k : string) (v : option A) : list string :=
  match v with Some _ => [] | None => [k] end.

Definition missing_keys (d : data) : list string :=
  absent "track" (track d)
  ++ match info_ d with
     | None => ["info"%string]
     | Some i =>
         absent "identifier" (identifier i)
         ++ absent "isSeekable" (isSeekable i)
         ++ absent "author" (author i)
         ++ absent "length" (length i)
         ++ absent "isStream" (isStream i)
         ++ absent "title" (title i)
         ++ absent "uri" (uri i)
     end.

(** A [track] argument of [add] and [play]: a dictionary or a track. *)
Inductive arg : Type :=
| FromDict (d : data)
| FromTrack (t : AudioTrack).

(** [AudioTrack(track, requester) if isinstance(track, dict) else track] *)
Definition convert (a : arg) (requester : Z) : built :=
  match a with
  | FromDict d => __init__ d requester
  | FromTrack t => Built t
  end.

End Track.

(** The dictionary with exactly the fields of a track. *)
Definition to_data (t : AudioTrack) : Track.data :=
  Track.MkData
    (Some (track t))
    (Some (Track.MkInfo (Some (identifier t)) (Some (is_seekable t))
                        (Some (author t)) (Some (duration t))
                        (Some (stream t)) (Some (title t)) (Some (uri t)))).

(** A track with another requester. *)
Definition with_requester (r : Z) (t : AudioTrack) : AudioTrack :=
  MkTrack (track t) (identifier t) (is_seekable t) (author t) (duration t)
          (stream t) (title t) (uri t) r.

(** [AdvancedPlayer.add] and [AdvancedPlayer.play] on a [track] argument
    that may be a dictionary; [InvalidTrack] leaves the constructor before
    the player is touched. *)
Inductive raised : Type :=
| InvalidTrackError (missing_key : string)
| PlayerError (e : exn).

Definition add_arg (requester : Z) (a : Track.arg) (index : option Z)
           (w : AdvancedPlayer.t * list effect)
  : (raised + unit) * (AdvancedPlayer.t * list effect) :=
  match Track.convert a requester with
  | Track.InvalidTrack k => (inl (InvalidTrackError k), w)
  | Track.Built at_ =>
      match AdvancedPlayer.add at_ index w with
      | (Return u, w') => (inr u, w')
      | (Raise e, w') => (inl (PlayerError e), w')
      end
  end.

Definition play_arg (a : option Track.arg) (start_time end_time : Z)
           (no_replace : bool) (draw : Z)
           (w : AdvancedPlayer.t * list effect)
  : (raised + unit) * (AdvancedPlayer.t * list effect) :=
  let converted :=
    match a with
    | Some (Track.FromDict d) =>
        match Track.__init__ d 0 with
        | Track.Built t => inr (Some t)
        | Track.InvalidTrack k => inl k
        end
    | Some (Track.FromTrack t) => inr (Some t)
    | None => inr None
    end in
  match converted with
  | inl k => (inl (InvalidTrackError k), w)
  | inr tr =>
      match AdvancedPlayer.play tr start_time end_time no_replace draw w with
      | (Return u, w') => (inr u, w')
      | (Raise e, w') => (inl (PlayerError e), w')
      end
  end.

(** ** Inbound messages: [_listen], [_handle_message], [_handle_event]

    The read loop of the channel hands each text frame to
    [_handle_message], which routes it by its ['op'] to the node
    statistics, to the player of the guild, or to [_handle_event], which
    turns the message into a typed event, dispatches it and passes it to
    the player. *)

Module Hub.

(** What [BasePlayer] asks of a player class, and what the channel reads
    from a player.  [draw] is the value that [randrange] returns if the
    handler calls it, [now] the clock read by [_update_state]. *)
Class Player (P : Type) : Type := {
  guild_of : P -> string;
  current_of : P -> option AudioTrack;
  player_handle_event : event -> Z -> M P unit;
  player_update_state : Z -> option Z -> option Z -> M P unit
}.

#[export] Instance basic_player : Player BasicPlayer.t := {
  guild_of := BasicPlayer.guild_id;
  current_of := BasicPlayer.current;
  player_handle_event := fun ev _ => BasicPlayer._handle_event ev;
  player_update_state := BasicPlayer._update_state
}.

#[export] Instance advanced_player : Player AdvancedPlayer.t := {
  guild_of := fun p => BasicPlayer.guild_id (AdvancedPlayer.base p);
  current_of := fun p => BasicPlayer.current (AdvancedPlayer.base p);
  player_handle_event := AdvancedPlayer._handle_event;
  player_update_state := fun now pos time =>
    AdvancedPlayer.lift (BasicPlayer._update_state now pos time)
}.

(** The ['state'] of a player update; both keys are read with
    [state.get(key, 0)]. *)
Record state_data : Type := MkState {
  position : option Z;
  time : option Z
}.

(** A decoded message of the node.  A key that is absent is [None]; the
    values have the types the node gives them, the guild id being the
    integer that [int] reads. *)
Record message : Type := MkMessage {
  op : option string;
  guildId : option Z;
  state : option state_data;
  type_ : option string;
  reason : option string;
  thresholdMs : option Z;
  error : option string;
  code : option Z;
  byRemote : option bool
}.

Inductive warning : Type :=
| UnknownOp (o : string)
| NoPlayerForEvent (guild : Z)
| UnknownEvent (event_type : string).

(** What the handling of messages does to the outside world:
    [_lavalink._dispatch_event], the warnings, and the effects of the
    player's own methods. *)
Inductive action : Type :=
| Dispatched (ev : event)
| Warned (w : warning)
| ByPlayer (e : effect).

Inductive failure : Type :=
| KeyError (key : string)
| FromPlayer (e : exn).

Section Routing.
Context {P : Type} `{Player P}.

(** The player manager's table, the statistics of the node (the message
    they were built from) and the trace. *)
Record hub : Type := MkHub {
  players : gmap Z P;
  stats : option message;
  out : list action
}.

Definition warn (w : warning) (h : hub) : hub :=
  MkHub (players h) (stats h) (out h ++ [Warned w]).

Definition lavalink_dispatch (ev : event) (h : hub) : hub :=
  MkHub (players h) (stats h) (out h ++ [Dispatched ev]).

(** A method of the player registered for [guild] runs; the table holds
    the player it leaves. *)
Definition on_player (guild : Z) (p : P) (m : M P unit) (h : hub)
  : (failure + unit) * hub :=
  let '(res, (p', effects)) := m (p, []) in
  (match res with
   | Return u => inr u
   | Raise e => inl (FromPlayer e)
   end,
   MkHub (<[guild := p']> (players h)) (stats h)
         (out h ++ map ByPlayer effects)).

(** [data[k]] for the rest of a handler. *)
Definition item {A} (k : string) (v : option A) (h : hub)
           (rest : A -> (failure + unit) * hub) : (failure + unit) * hub :=
  match v with
  | Some a => rest a
  | None => (inl (KeyError k), h)
  end.

(** The event that a message of a known type stands for. *)
Definition translate (p : P) (event_type : string) (data : message) (h : hub)
           (rest : option event -> (failure + unit) * hub)
  : (failure + unit) * hub :=
  if String.eqb event_type "TrackEndEvent" then
    item "reason" (reason data) h (fun r =>
      rest (Some (TrackEndEvent (guild_of p) (current_of p) r)))
  else if String.eqb event_type "TrackStuckEvent" then
    item "thresholdMs" (thresholdMs data) h (fun t =>
      rest (Some (TrackStuckEvent (guild_of p) (current_of p) t)))
  else if String.eqb event_type "TrackExceptionEvent" then
    item "error" (error data) h (fun e =>
      rest (Some (TrackExceptionEvent (guild_of p) (current_of p) e)))
  else if String.eqb event_type "WebSocketClosedEvent" then
    item "code" (code data) h (fun c =>
    item "reason" (reason data) h (fun r =>
    item "byRemote" (byRemote data) h (fun b =>
      rest (Some (WebSocketClosedEvent (guild_of p) c r b)))))
  else rest None.

Definition _handle_event (data : message) (draw : Z) (h : hub)
  : (failure + unit) * hub :=
  item "guildId" (guildId data) h (fun guild =>
    match players h !! guild with
    | None => (inr tt, warn (NoPlayerForEvent guild) h)
    | Some p =>
        item "type" (type_ data) h (fun event_type =>
          translate p event_type data h (fun translated =>
            match translated with
            | None => (inr tt, warn (UnknownEvent event_type) h)
            | Some ev =>
                let h := lavalink_dispatch ev h in
                on_player guild p (player_handle_event ev draw) h
            end))
    end).

Definition _handle_message (data : message) (now draw : Z) (h : hub)
  : (failure + unit) * hub :=
  item "op" (op data) h (fun o =>
    if String.eqb o "stats" then
      (inr tt, MkHub (players h) (Some data) (out h))
    else if String.eqb o "playerUpdate" then
      item "guildId" (guildId data) h (fun guild =>
        match players h !! guild with
        | None => (inr tt, h)
        | Some p =>
            item "state" (state data) h (fun st =>
              on_player guild p
                        (player_update_state now (position st) (time st)) h)
        end)
    else if String.eqb o "event" then _handle_event data draw h
    else (inr tt, warn (UnknownOp o) h)).

(** A frame of the socket: a text frame, with the clock and the draw
    that its handling reads; a close, closing or closed frame, with its
    data and extra; any other frame. *)
Inductive frame : Type :=
| Text (data : message) (now draw : Z)
| Closer (data : option Z) (extra : option string)
| OtherFrame.

(** How [_listen] ends: with [_websocket_closed] and the reconnect it
    runs, or with the exception that left a handler. *)
Inductive listened : Type :=
| Reconnected (e : WebSocket.ending)
| Failed (f : failure).

(** [_listen] on the frames that the socket yields; [script] is what the
    reconnect attempts of [_websocket_closed] meet. *)
Fixpoint _listen (frames : list frame) (script : list WebSocket.outcome)
         (h : hub) (w : WebSocket.world)
  : listened * (hub * WebSocket.world) :=
  match frames with
  | [] =>
      let '(e, w) := WebSocket._websocket_closed None None script w in
      (Reconnected e, (h, w))
  | Text data now draw :: frames' =>
      match _handle_message data now draw h with
      | (inr _, h) => _listen frames' script h w
      | (inl f, h) => (Failed f, (h, w))
      end
  | Closer data extra :: _ =>
      let '(e, w) := WebSocket._websocket_closed data extra script w in
      (Reconnected e, (h, w))
  | OtherFrame :: frames' => _listen frames' script h w
  end.

(** What the handling of [data] may do to the hub: no player is added
    or removed, only the player of the message's guild may change, and
    the trace grows. *)
Definition kept (data : message) (h h' : hub) : Prop :=
  dom (players h') = dom (players h)
  /\ (forall g, guildId data <> Some g -> players h' !! g = players h !! g)
  /\ (exists more, out h' = out h ++ more).

(** The text frames of a list of frames, up to the first closing frame. *)
Fixpoint texts_before_close (frames : list frame)
  : list (message * Z * Z) :=
  match frames with
  | [] => []
  | Text data now draw :: frames' =>
      (data, now, draw) :: texts_before_close frames'
  | Closer _ _ :: _ => []
  | OtherFrame :: frames' => texts_before_close frames'
  end.

(** The arguments of [_websocket_closed] at the end of a list of frames. *)
Fixpoint close_of (frames : list frame) : option Z * option string :=
  match frames with
  | [] => (None, None)
  | Closer data extra :: _ => (data, extra)
  | _ :: frames' => close_of frames'
  end.

(** The messages handled one after the other, up to the first failure. *)
Fixpoint handle_all (msgs : list (message * Z * Z)) (h : hub)
  : (failure + unit) * hub :=
  match msgs with
  | [] => (inr tt, h)
  | (data, now, draw) :: msgs' =>
      match _handle_message data now draw h with
      | (inr _, h) => handle_all msgs' h
      | (inl f, h) => (inl f, h)
      end
  end.

End Routing.

End Hub.

(** ** More vocabulary for the players *)

(** The two keys of the voice dictionary. *)
Definition voice_keys : gset string := {["sessionId"; "event"]}.

(** What a voice handler may add to the trace of the player [p]: nothing,
    or one voice update on the player's node that carries the voice
    dictionary [v] the handler leaves, with both keys. *)
Definition voice_step (p : BasicPlayer.t) (v : gmap string string)
           (out : list effect) : Prop :=
  out = []
  \/ (out = [Send (BasicPlayer.node p)
                  (OpVoiceUpdate (BasicPlayer.guild_id p) v)]
      /\ dom v = voice_keys
      /\ is_Some (v !! "sessionId") /\ is_Some (v !! "event")).

Definition is_voice_update (c : Node * payload) : bool :=
  match snd c with OpVoiceUpdate _ _ => true | _ => false end.

(** A gain within the range of the equalizer. *)
Definition gain_ok (g : Q) : Prop := (- (1 # 4) <= g <= 1)%Q.

(** An equalizer array as the constructor and [set_gains] leave it. *)
Definition equalizer_ok (e : list Q) : Prop :=
  List.length e = 15%nat /\ Forall gain_ok e.

(** The index that a Python list of 15 items gives to a band. *)
Definition py_band (band : Z) : Z := if band <? 0 then band + 15 else band.

(** An effect on the node [n]. *)
Definition on_node (n : Node) (e : effect) : Prop :=
  match e with
  | Send m _ => m = n
  | Dispatch m _ => m = n
  end.

(** * Facts *)

Lemma py_min_is_min a b : py_min a b = Z.min a b.
Proof. unfold py_min. destruct (Z.ltb_spec b a); lia. Qed.

Lemma Qltb_true a b : Qltb a b = true <-> (a < b)%Q.
Proof.
  unfold Qltb. destruct (Qle_bool b a) eqn:E; simpl.
  - apply Qle_bool_iff in E. split; [discriminate|]. intros H.
    exfalso. apply (Qlt_not_le _ _ H E).
  - split; [|reflexivity]. intros _. apply Qnot_le_lt. intros H.
    apply Qle_bool_iff in H. congruence.
Qed.

Lemma Qltb_false a b : Qltb a b = false <-> (b <= a)%Q.
Proof.
  unfold Qltb. destruct (Qle_bool b a) eqn:E; simpl.
  - apply Qle_bool_iff in E. tauto.
  - split; [discriminate|]. intros H. apply Qle_bool_iff in H. congruence.
Qed.

(** [clamp_gain] is the clamp to the interval from -0.25 to 1. *)
Lemma clamp_gain_spec (g : Q) :
    (- (1 # 4) <= clamp_gain g <= 1)%Q
    /\ ((- (1 # 4) <= g <= 1)%Q -> clamp_gain g = g)
    /\ ((g < - (1 # 4))%Q -> clamp_gain g = (- (1 # 4))%Q)
    /\ ((1 < g)%Q -> clamp_gain g = 1%Q).
Proof.
  unfold clamp_gain, py_maxQ, py_minQ.
  destruct (Qltb 1 g) eqn:E1.
  - apply Qltb_true in E1.
    destruct (Qltb 1 (- (1 # 4))) eqn:E2; [discriminate E2|].
    repeat split; intros; try reflexivity; try lra.
  - apply Qltb_false in E1.
    destruct (Qltb g (- (1 # 4))) eqn:E2.
    + apply Qltb_true in E2. repeat split; intros; try reflexivity; lra.
    + apply Qltb_false in E2. repeat split; intros; try reflexivity; lra.
Qed.

Lemma truthyQ_true g : truthyQ g = true <-> ~ (g == 0)%Q.
Proof.
  unfold truthyQ. destruct (Qeq_bool g 0) eqn:E; simpl.
  - apply Qeq_bool_iff in E. split; [discriminate|contradiction].
  - split; [|reflexivity]. intros _ H. apply Qeq_bool_iff in H. congruence.
Qed.

Lemma existsb_truthyQ (e : list Q) :
    Exists (fun g => ~ (g == 0)%Q) e -> existsb truthyQ e = true.
Proof.
  induction 1 as [g e H|g e _ IH]; simpl.
  - apply truthyQ_true in H. rewrite H. reflexivity.
  - rewrite IH. apply orb_true_r.
Qed.

Lemma existsb_truthyQ_false (e : list Q) :
    Forall (fun g => (g == 0)%Q) e -> existsb truthyQ e = false.
Proof.
  induction 1 as [|g e H _ IH]; simpl; [reflexivity|].
  rewrite IH, orb_false_r. destruct (truthyQ g) eqn:E; [|reflexivity].
  apply truthyQ_true in E. contradiction.
Qed.

(** The payload built by [change_node] lists every band with its gain. *)
Lemma enumerate_lookup {A} (l : list A) (i : nat) :
    enumerate l !! i = (fun x => (Z.of_nat i, x)) <$> l !! i.
Proof. unfold enumerate. rewrite list_lookup_imap. reflexivity. Qed.

(** Running a command: the binds and the primitive steps are unfolded. *)
Ltac run :=
    repeat (cbn [mbind mret M_bind M_ret fst snd];
            unfold BasicPlayer.send, BasicPlayer.dispatch, modify, get, tell,
                   when, raise, mbind, mret, M_bind, M_ret).

Ltac run_adv :=
    repeat (run; unfold AdvancedPlayer.send, AdvancedPlayer.dispatch,
                   AdvancedPlayer.stop, BasicPlayer.stop, AdvancedPlayer.lift).

Module WebSocketFacts.
Import WebSocket.

Lemma transmitted_app tr1 tr2 :
  transmitted (tr1 ++ tr2) = transmitted tr1 ++ transmitted tr2.
Proof. apply omap_app. Qed.

Lemma attempts_app tr1 tr2 :
  attempts (tr1 ++ tr2) = (attempts tr1 + attempts tr2)%nat.
Proof. unfold attempts. rewrite filter_app, length_app. reflexivity. Qed.

Lemma send_all_disconnected ms : forall s tr,
  connected s = false ->
  send_all ms (s, tr) = (set_queue (message_queue s ++ ms) s, tr).
Proof.
  induction ms as [|m ms IH]; intros s tr Hs; simpl.
  - rewrite app_nil_r. destruct s; reflexivity.
  - unfold send_all in IH. rewrite Hs. rewrite IH by exact Hs.
    simpl. rewrite <- app_assoc. reflexivity.
Qed.

Lemma send_all_connected ms : forall s tr,
  connected s = true ->
  send_all ms (s, tr) = (s, tr ++ map SendJson ms).
Proof.
  induction ms as [|m ms IH]; intros s tr Hs; simpl.
  - rewrite app_nil_r. reflexivity.
  - unfold send_all in IH. rewrite Hs. rewrite IH by exact Hs.
    rewrite <- app_assoc. reflexivity.
Qed.

Lemma transmitted_map_SendJson ms : transmitted (map SendJson ms) = ms.
Proof. induction ms; simpl; congruence. Qed.

Lemma on_established_spec s tr :
  on_established (set_ws (Some (Socket false)) s, tr)
  = (established_state s,
     tr ++ [NodeConnect; Listen]
        ++ map SendJson (resume_list s ++ message_queue s)).
Proof.
  unfold on_established, resume_list, established_state.
  assert (Hr : forall a b, resume_request
                 (fst (emit a (emit b (set_ws (Some (Socket false)) s, tr))))
               = resume_request s) by reflexivity.
  rewrite Hr. pose proof (send_all_connected) as Hsend.
  destruct s as [w q k tmo c]; simpl in *.
  destruct (resume_request _) as [req|]; simpl;
    destruct q as [|m q]; unfold emit; simpl;
    try (unfold send_all in Hsend; rewrite Hsend by reflexivity; simpl);
    rewrite <- ?app_assoc; simpl;
    rewrite ?orb_true_r, ?orb_false_r; reflexivity.
Qed.

Lemma retry_prefix hdr fs : forall rest attempt s tr,
  connected s = false ->
  retryable attempt fs = true ->
  exists tr',
    connect_loop hdr (fs ++ rest) attempt (s, tr)
    = connect_loop hdr rest (attempt + Z.of_nat (length fs)) (s, tr ++ tr')
    /\ transmitted tr' = []
    /\ attempts tr' = length fs.
Proof.
  induction fs as [|o fs IH]; intros rest attempt s tr Hs Hr.
  - exists []. rewrite app_nil_r, Z.add_0_r. auto.
  - simpl in Hr. apply andb_true_iff in Hr as [Hr Hfs].
    apply andb_true_iff in Hr as [Hfail Hauth].
    assert (Hstep : exists tr1,
               on_failure (attempt + 1) o (emit (WsConnect hdr) (s, tr))
               = (false, (s, tr ++ WsConnect hdr :: tr1))
               /\ transmitted tr1 = [] /\ attempts tr1 = 0%nat).
    { unfold on_failure, emit; simpl.
      destruct (attempt + 1 =? 1) eqn:E1; simpl.
      - destruct o as [| |status]; try discriminate; simpl.
        + eexists. rewrite <- !app_assoc. simpl. split; [reflexivity|]. split; reflexivity.
        + simpl in Hauth. destruct (status =? 401); [discriminate|].
          destruct (status =? 101); simpl; eexists; rewrite <- !app_assoc; simpl;
            (split; [reflexivity|]; split; reflexivity).
      - eexists. rewrite <- !app_assoc. simpl. split; [reflexivity|]. split; reflexivity. }
    destruct Hstep as (tr1 & Hstep & Ht1 & Ha1).
    destruct (IH rest (attempt + 1) s (tr ++ WsConnect hdr :: tr1) Hs Hfs)
      as (tr2 & Hloop & Ht2 & Ha2).
    exists (WsConnect hdr :: tr1 ++ tr2).
    split; [|split].
    + cbn [app connect_loop fst]. rewrite Hs.
      destruct o; try discriminate; rewrite Hstep, Hloop;
        rewrite <- app_assoc; simpl;
        (replace (attempt + 1 + Z.of_nat (length fs))
           with (attempt + Z.of_nat (S (length fs))) by lia); reflexivity.
    + change (WsConnect hdr :: tr1 ++ tr2) with ([WsConnect hdr] ++ tr1 ++ tr2).
      rewrite !transmitted_app, Ht1, Ht2. reflexivity.
    + change (WsConnect hdr :: tr1 ++ tr2) with ([WsConnect hdr] ++ tr1 ++ tr2).
      rewrite !attempts_app, Ha1, Ha2. reflexivity.
Qed.

(** Once one attempt has failed, no later failure makes [connect]
    return: the test on the status is made on the first attempt only. *)
Lemma connect_loop_no_return hdr script : forall attempt w,
  1 <= attempt ->
  fst (connect_loop hdr script attempt w) <> Returned.
Proof.
  induction script as [|o script IH]; intros attempt w Ha; cbn [connect_loop].
  - destruct (connected (fst w)); discriminate.
  - destruct (connected (fst w)); [discriminate|].
    destruct o.
    + apply IH. lia.
    + unfold on_failure. replace (attempt + 1 =? 1) with false by lia.
      cbn. apply IH. lia.
    + unfold on_failure. replace (attempt + 1 =? 1) with false by lia.
      cbn. apply IH. lia.
Qed.

(** A rejection on the first attempt ends [connect] after that one
    attempt, whatever the remote would answer later. *)
Lemma auth_rejection_first_attempt s tr rest :
  connected s = false ->
  connect (WSServerHandshakeError 401 :: rest) (s, tr)
  = (Returned,
     (s, tr ++ [WsConnect (resume_header s); Warning FailedToEstablish;
                Warning AuthenticationFailed])).
Proof.
  intros Hs. unfold connect. cbn [connect_loop fst]. rewrite Hs.
  unfold on_failure, emit. simpl. rewrite <- ?app_assoc. reflexivity.
Qed.

(** C1.  A channel whose first attempt fails for want of a reachable
    host and whose second attempt is rejected with status 401 does not
    stop: it waits 20 units and makes a third attempt (and a fourth
    after a further rejection), without the authentication warning. *)
Theorem auth_rejection_on_later_attempt_retries :
  connect [ClientConnectorError; WSServerHandshakeError 401;
           WSServerHandshakeError 401]
          (plain_channel, [])
  = (Retrying,
     (plain_channel,
      [WsConnect None; Warning FailedToEstablish; Warning MaybeNotRunning;
       Sleep 10;
       WsConnect None; Sleep 20;
       WsConnect None; Sleep 30])).
Proof. reflexivity. Qed.

(** A socket that the remote has closed: messages are buffered, and the
    reconnect that follows the close flushes them. *)
Example reconnect_after_close :
  _websocket_closed
    (Some 1006) None [ClientConnectorError; Established]
    (send_all [OpPause "1" true; OpSeek "1" 30000]
              (Mk (Some (Socket true)) [] None None false, []))
  = (LoopLeft,
     (Mk (Some (Socket false)) [] None None false,
      [NodeDisconnect (Some 1006) None;
       WsConnect None; Warning FailedToEstablish; Warning MaybeNotRunning;
       Sleep 10;
       WsConnect None; NodeConnect; Listen;
       SendJson (OpPause "1" true); SendJson (OpSeek "1" 30000)])).
Proof. reflexivity. Qed.

(** C5, as stated, fails: with a resume key and a positive timeout the
    channel transmits its own [configureResuming] message, handed to
    [_send] after the socket is live, ahead of the buffered message. *)
Lemma buffer_not_flushed_first :
  ~ buffer_flushed_first [Established] (resuming_channel, []).
Proof.
  intros [_ [later H]]. vm_compute in H. discriminate H.
Qed.

(** C5, amended.  Messages sent while the channel is disconnected are
    appended to the buffer in order and nothing is transmitted.  When a
    later attempt succeeds, the channel is connected, the buffer is
    empty, and what was transmitted is: the [configureResuming] message
    if one is due, then the buffered messages, once each and in the
    order they were sent.  Messages sent afterwards are transmitted after
    them and the buffer stays empty. *)
Theorem buffered_messages_flushed_in_order s tr ms fs rest later :
  connected s = false ->
  retryable 0 fs = true ->
  let w1 := send_all ms (s, tr) in
  let r := connect (fs ++ Established :: rest) w1 in
  let w3 := send_all later (snd r) in
  (message_queue (fst w1) = message_queue s ++ ms /\ snd w1 = tr)
  /\ (fst r = LoopLeft
      /\ connected (fst (snd r)) = true
      /\ message_queue (fst (snd r)) = []
      /\ transmitted (snd (snd r))
         = transmitted tr ++ resume_list s ++ (message_queue s ++ ms))
  /\ (message_queue (fst w3) = []
      /\ transmitted (snd w3)
         = transmitted tr ++ resume_list s ++ (message_queue s ++ ms)
             ++ later).
Proof.
  intros Hs Hfs w1 r w3.
  assert (Hw1 : w1 = (set_queue (message_queue s ++ ms) s, tr))
    by (apply send_all_disconnected; exact Hs).
  set (s1 := set_queue (message_queue s ++ ms) s) in *.
  assert (Hs1 : connected s1 = false) by exact Hs.
  assert (Hr : exists tr',
             r = (LoopLeft,
                  (established_state s1,
                   tr ++ tr' ++ map SendJson (resume_list s1 ++ message_queue s1)))
             /\ transmitted tr' = []).
  { subst r. rewrite Hw1. unfold connect.
    destruct (retry_prefix (resume_header (fst (s1, tr))) fs
                (Established :: rest) 0 s1 tr Hs1 Hfs)
      as (tr1 & Hloop & Ht1 & _).
    rewrite Hloop. cbn [connect_loop fst snd]. rewrite Hs1.
    unfold emit at 1. cbn [fst snd].
    rewrite on_established_spec.
    exists (tr1 ++ [WsConnect (resume_header s1); NodeConnect; Listen]).
    split.
    - destruct rest; cbn [connect_loop fst];
        cbn [connected established_state ws closed negb];
        unfold emit; cbn [fst snd]; rewrite <- !app_assoc; reflexivity.
    - rewrite transmitted_app, Ht1. reflexivity. }
  destruct Hr as (tr' & Hr & Ht').
  assert (Hlist : resume_list s1 ++ message_queue s1
                  = resume_list s ++ (message_queue s ++ ms)) by reflexivity.
  rewrite Hlist in Hr.
  split; [rewrite Hw1; split; reflexivity|].
  split.
  - rewrite Hr. cbn [fst snd]. repeat split.
    rewrite !transmitted_app, Ht', transmitted_map_SendJson. reflexivity.
  - subst w3. rewrite Hr. cbn [snd].
    rewrite send_all_connected by reflexivity. cbn [fst snd].
    split; [reflexivity|].
    rewrite !transmitted_app, Ht', !transmitted_map_SendJson.
    cbn [app]. rewrite <- !app_assoc. reflexivity.
Qed.

Lemma buffered_messages_flushed_in_order_witness :
  transmitted
    (snd (snd (connect [ClientConnectorError; WSServerHandshakeError 401;
                        Established]
                       (send_all [OpDestroy "1"] (resuming_channel, [])))))
  = [OpConfigureResuming "key" 60; OpStop "1"; OpDestroy "1"].
Proof.
  exact (proj2 (proj2 (proj2 (proj1 (proj2
           (buffered_messages_flushed_in_order
              resuming_channel [] [OpDestroy "1"]
              [ClientConnectorError; WSServerHandshakeError 401] [] []
              eq_refl eq_refl)))))).
Defined.

End WebSocketFacts.

(** ** The base player *)

Module BasicPlayerFacts.
Import BasicPlayer.

(** The player that [init] builds has the fifteen bands, all at zero. *)
Lemma init_equalizer guild n :
  length (equalizer (init guild n)) = 15%nat
  /\ Forall (fun g => (g == 0)%Q) (equalizer (init guild n)).
Proof. split; [reflexivity|]. repeat constructor. Qed.

(** C6.  The position is 0 when the player is not playing; while it is
    playing it is the smaller of the last known position and the duration
    of the current track when paused, and the smaller of the last known
    position plus the time elapsed since the last update and that duration
    otherwise.  Hence it never exceeds the duration of the current track
    (a duration is not negative), and while paused it does not move with
    the clock. *)
Theorem position_bounded_and_frozen (p : t) (now : Z) :
  (is_playing p = false -> position now p = 0)
  /\ (forall cur, is_playing p = true -> current p = Some cur ->
        (paused p = true ->
           position now p = Z.min (_last_position p) (duration cur))
        /\ (paused p = false ->
              position now p
              = Z.min (_last_position p + (now - _last_update p))
                      (duration cur))
        /\ position now p <= duration cur)
  /\ (forall cur, current p = Some cur -> 0 <= duration cur ->
        position now p <= duration cur)
  /\ (paused p = true -> forall now', position now' p = position now p).
Proof.
  unfold position. repeat split.
  - intros H. rewrite H. destruct (current p); reflexivity.
  - intros Hp. rewrite H, H0, Hp. simpl. apply py_min_is_min.
  - intros Hp. rewrite H, H0, Hp. simpl. apply py_min_is_min.
  - rewrite H, H0. simpl. destruct (paused p); rewrite py_min_is_min; lia.
  - intros cur Hc Hd. rewrite Hc.
    destruct (is_playing p); simpl; [|lia].
    destruct (paused p); rewrite py_min_is_min; lia.
  - intros Hp now'. rewrite Hp. destruct (current p); [|reflexivity].
    destruct (is_playing p); reflexivity.
Qed.

(** A paused player 90 s into a track of 200 s, at two clock readings. *)
Example position_paused_example :
  position 5000 tuned_player = 90000 /\ position 999000 tuned_player = 90000.
Proof. split; reflexivity. Qed.

(** What [set_volume] and [set_pause] do, side by side. *)
Lemma set_volume_run vol p log :
  set_volume vol (p, log)
  = (Return tt,
     (set_volume_field vol p,
      log ++ [Send (node p) (OpVolume (guild_id p) (volume p))])).
Proof. reflexivity. Qed.

Lemma set_pause_run pause p log :
  set_pause pause (p, log)
  = (Return tt,
     (set_paused pause p,
      log ++ [Send (node p) (OpPause (guild_id p) pause)])).
Proof. reflexivity. Qed.

(** C4.  On a fresh player (volume 100), [set_volume 50] sends a volume
    command that carries 100, the value being replaced, and then stores
    50: the new value does not reach the node. *)
Theorem set_volume_sends_old_value :
  set_volume 50 (init "1" main_node, [])
  = (Return tt,
     (set_volume_field 50 (init "1" main_node),
      [Send main_node (OpVolume "1" 100)])).
Proof. reflexivity. Qed.

(** C7.  [change_node] ends normally on the new node, and in what it
    emits: with a current track, the only play command is the one for that
    track on the new node with [startTime] the computed position, the
    anchor becomes the clock reading, and a pause command is there exactly
    when the player is paused; without a current track there is neither;
    the volume command is there exactly when the volume is not 100; the
    equalizer command, with all the bands, is there exactly when some band
    is not zero; the node-changed event comes last. *)
Theorem change_node_resends p log new now now' :
  let r := change_node new now now' (p, log) in
  let p' := fst (snd r) in
  exists out,
    (fst r = Return tt /\ snd (snd r) = log ++ out /\ node p' = new)
    /\ (forall cur, current p = Some cur ->
          only is_play out
          = [(new, OpPlay (guild_id p) (track cur) (Some (position now p))
                          None None)]
          /\ _last_update p' = now'
          /\ (paused p = true ->
                only is_pause out = [(new, OpPause (guild_id p) true)])
          /\ (paused p = false -> only is_pause out = []))
    /\ (current p = None ->
          only is_play out = [] /\ only is_pause out = []
          /\ _last_update p' = _last_update p)
    /\ (volume p <> 100 ->
          only is_volume out = [(new, OpVolume (guild_id p) (volume p))])
    /\ (volume p = 100 -> only is_volume out = [])
    /\ (Exists (fun g => ~ (g == 0)%Q) (equalizer p) ->
          only is_equalizer out
          = [(new, OpEqualizer (guild_id p) (enumerate (equalizer p)))])
    /\ (Forall (fun g => (g == 0)%Q) (equalizer p) ->
          only is_equalizer out = [])
    /\ last out
       = Some (Dispatch new (NodeChangedEvent (guild_id p) (node p) new)).
Proof.
  intros r p'. subst p' r. unfold change_node, _dispatch_voice_update. run.
  destruct (available (node p));
    destruct (bool_decide (_voice_state p = ∅)); cbn [negb]; run.
  all: cbn [_voice_state set_node guild_id].
  all: try destruct (bool_decide (dom (_voice_state p) = _)); run.
  all: destruct (current p) as [cur|] eqn:Ecur; run.
  all: try destruct (paused p) eqn:Epaused; run.
  all: destruct (volume p =? 100) eqn:Evol; cbn [negb]; run.
  all: destruct (existsb truthyQ (equalizer p)) eqn:Eeq; run.
  all: eexists; split;
    [split; [reflexivity|split; [rewrite <- ?app_assoc; reflexivity|reflexivity]]|].
  all: repeat split; intros; simplify_eq; try reflexivity; try lia.
  all: try (exfalso; apply Z.eqb_neq in Evol; contradiction).
  all: match goal with
       | H : Exists _ _ |- _ => apply existsb_truthyQ in H; congruence
       | H : Forall _ _ |- _ => apply existsb_truthyQ_false in H; congruence
       end.
Qed.

(** A move of the tuned player: everything is resent. *)
Example change_node_example :
  snd (snd (change_node spare_node 5000 5001 (tuned_player, [])))
  = [Send main_node (OpDestroy "1");
     Send spare_node (OpPlay "1" (track song) (Some 90000) None None);
     Send spare_node (OpPause "1" true);
     Send spare_node (OpVolume "1" 80);
     Send spare_node (OpEqualizer "1" (enumerate (equalizer tuned_player)));
     Dispatch spare_node (NodeChangedEvent "1" main_node spare_node)].
Proof. reflexivity. Qed.

(** A move of a fresh player: nothing but the destroy and the event. *)
Example change_node_fresh_example :
  snd (snd (change_node spare_node 5000 5001 (init "1" main_node, [])))
  = [Send main_node (OpDestroy "1");
     Dispatch spare_node (NodeChangedEvent "1" main_node spare_node)].
Proof. reflexivity. Qed.

Lemma basic_track_end_finished_clears player tr p log :
  _handle_event (TrackEndEvent player tr "FINISHED") (p, log)
  = (Return tt, (set_current None p, log)).
Proof. reflexivity. Qed.

End BasicPlayerFacts.

(** ** The equalizer *)

Lemma list_setitem_valid {A} (l : list A) (band : Z) (x : A) :
    length l = 15%nat -> valid_band band ->
    list_setitem l band x = Some (<[Z.to_nat band := x]> l).
Proof.
  intros Hl [H0 H14]. unfold list_setitem. rewrite Hl.
  rewrite (proj2 (Z.leb_le 0 band)) by lia.
  rewrite (proj2 (Z.ltb_lt band (Z.of_nat 15))) by lia. reflexivity.
Qed.

Lemma apply_gains_length gl : forall e,
    length (apply_gains gl e) = length e.
Proof.
  induction gl as [|bg gl IH]; intros e; [reflexivity|].
  unfold apply_gains in *. simpl. rewrite IH. apply length_insert.
Qed.

Lemma apply_gains_snoc gl bg e :
    apply_gains (gl ++ [bg]) e
    = <[Z.to_nat (fst bg) := clamp_gain (snd bg)]> (apply_gains gl e).
Proof. unfold apply_gains. rewrite fold_left_app. reflexivity. Qed.

Lemma last_gain_snoc i gl bg :
    last_gain i (gl ++ [bg])
    = if (Z.to_nat (fst bg) =? i)%nat then Some (snd bg) else last_gain i gl.
Proof. unfold last_gain. rewrite fold_left_app. reflexivity. Qed.

Lemma apply_gains_lookup gl : forall (e : list Q) (i : nat),
    (i < length e)%nat ->
    apply_gains gl e !! i
    = match last_gain i gl with
      | Some g => Some (clamp_gain g)
      | None => e !! i
      end.
Proof.
  induction gl as [|bg gl IH] using rev_ind; intros e i Hi; [reflexivity|].
  rewrite apply_gains_snoc, last_gain_snoc.
  destruct (Nat.eqb_spec (Z.to_nat (fst bg)) i) as [->|Hne].
  - apply list_lookup_insert_eq. rewrite apply_gains_length. exact Hi.
  - rewrite list_lookup_insert_ne by exact Hne. apply IH, Hi.
Qed.


Module GainsFacts.
Import BasicPlayer.

Lemma stored_nil p : stored [] p = p.
Proof. destruct p; reflexivity. Qed.

Lemma stored_cons bg gl p :
  stored gl (set_equalizer
               (<[Z.to_nat (fst bg) := clamp_gain (snd bg)]> (equalizer p)) p)
  = stored (bg :: gl) p.
Proof. reflexivity. Qed.

Lemma basic_gains_loop_valid gl : forall acc p tr,
  length (equalizer p) = 15%nat ->
  Forall (fun bg => valid_band (fst bg)) gl ->
  gains_loop gl acc (p, tr) = (Return (acc ++ package gl), (stored gl p, tr)).
Proof.
  induction gl as [|[band gain] gl IH]; intros acc p tr Hl Hv.
  - simpl. rewrite app_nil_r, stored_nil. reflexivity.
  - inversion Hv as [|? ? Hband Hrest]; subst. simpl in Hband.
    cbn [gains_loop]. unfold assign_band. run.
    rewrite (list_setitem_valid _ _ _ Hl Hband). run.
    rewrite IH; [|cbn; rewrite length_insert; exact Hl|exact Hrest].
    rewrite <- app_assoc. reflexivity.
Qed.

Lemma advanced_gains_loop_valid gl : forall acc p tr,
  length (equalizer (AdvancedPlayer.base p)) = 15%nat ->
  Forall (fun bg => valid_band (fst bg)) gl ->
  AdvancedPlayer.gains_loop gl acc (p, tr)
  = (Return (acc ++ package gl),
     (AdvancedPlayer.set_base (stored gl (AdvancedPlayer.base p)) p, tr)).
Proof.
  induction gl as [|[band gain] gl IH]; intros acc p tr Hl Hv.
  - simpl. rewrite app_nil_r, stored_nil. destruct p; reflexivity.
  - inversion Hv as [|? ? Hband Hrest]; subst. simpl in Hband.
    cbn [AdvancedPlayer.gains_loop].
    destruct Hband as [H0 H14].
    rewrite (proj2 (Z.ltb_lt (-1) band)) by lia.
    rewrite (proj2 (Z.ltb_lt band 15)) by lia. cbn [andb negb].
    unfold AdvancedPlayer.lift, assign_band. run.
    rewrite (list_setitem_valid _ _ _ Hl (conj H0 H14)). run.
    rewrite IH; [|cbn; rewrite length_insert; exact Hl|exact Hrest].
    rewrite <- app_assoc. reflexivity.
Qed.

Lemma advanced_gains_loop_invalid pre band gain post : forall acc p tr,
  length (equalizer (AdvancedPlayer.base p)) = 15%nat ->
  Forall (fun bg => valid_band (fst bg)) pre ->
  ~ valid_band band ->
  AdvancedPlayer.gains_loop (pre ++ (band, gain) :: post) acc (p, tr)
  = (Raise IndexError,
     (AdvancedPlayer.set_base (stored pre (AdvancedPlayer.base p)) p, tr)).
Proof.
  induction pre as [|[b g] pre IH]; intros acc p tr Hl Hv Hbad.
  - cbn [app AdvancedPlayer.gains_loop].
    assert (Hg : negb ((-1 <? band) && (band <? 15)) = true).
    { unfold valid_band in Hbad.
      destruct (Z.ltb_spec (-1) band), (Z.ltb_spec band 15);
        try reflexivity. exfalso. apply Hbad. lia. }
    rewrite Hg. rewrite stored_nil. destruct p; reflexivity.
  - inversion Hv as [|? ? Hband Hrest]; subst. simpl in Hband.
    cbn [app AdvancedPlayer.gains_loop].
    destruct Hband as [H0 H14].
    rewrite (proj2 (Z.ltb_lt (-1) b)) by lia.
    rewrite (proj2 (Z.ltb_lt b 15)) by lia. cbn [andb negb].
    unfold AdvancedPlayer.lift, assign_band. run.
    rewrite (list_setitem_valid _ _ _ Hl (conj H0 H14)). run.
    rewrite IH; [|cbn; rewrite length_insert; exact Hl|exact Hrest|exact Hbad].
    reflexivity.
Qed.

(** C3, amended.  On a player with its fifteen bands, a batch whose bands
    all lie in 0..14 succeeds in both variants: the entries are applied in
    order, each storing its gain clamped to the interval from -0.25 to 1
    (the last entry for a band wins, the other bands keep their value),
    and one equalizer command with the clamped entries is sent.  In the
    queueing variant, a batch with a band outside 0..14 fails with a range
    error at the first such entry and sends nothing; the entries before it
    have been applied, the entries from it on have not. *)
Theorem set_gains_applies_entries_in_order p tr pre :
  length (equalizer (AdvancedPlayer.base p)) = 15%nat ->
  Forall (fun bg => valid_band (fst bg)) pre ->
  let b := AdvancedPlayer.base p in
  let message := Send (node b) (OpEqualizer (guild_id b) (package pre)) in
  (AdvancedPlayer.set_gains pre (p, tr)
   = (Return tt, (AdvancedPlayer.set_base (stored pre b) p, tr ++ [message]))
   /\ set_gains pre (b, tr) = (Return tt, (stored pre b, tr ++ [message])))
  /\ (forall band gain post,
        ~ valid_band band ->
        AdvancedPlayer.set_gains (pre ++ (band, gain) :: post) (p, tr)
        = (Raise IndexError, (AdvancedPlayer.set_base (stored pre b) p, tr)))
  /\ (forall i : nat,
        (i < 15)%nat ->
        equalizer (stored pre b) !! i
        = match last_gain i pre with
          | Some g => Some (clamp_gain g)
          | None => equalizer b !! i
          end)
  /\ (forall g : Q,
        (- (1 # 4) <= clamp_gain g <= 1)%Q
        /\ ((- (1 # 4) <= g <= 1)%Q -> clamp_gain g = g)
        /\ ((g < - (1 # 4))%Q -> clamp_gain g = (- (1 # 4))%Q)
        /\ ((1 < g)%Q -> clamp_gain g = 1%Q)).
Proof.
  intros Hl Hv b message. subst b message. repeat apply conj.
  - unfold AdvancedPlayer.set_gains. run.
    rewrite (advanced_gains_loop_valid _ _ _ _ Hl Hv).
    unfold AdvancedPlayer.send, AdvancedPlayer.lift. run. reflexivity.
  - unfold set_gains. run.
    rewrite (basic_gains_loop_valid _ _ _ _ Hl Hv). run. reflexivity.
  - intros band gain post Hbad. unfold AdvancedPlayer.set_gains. run.
    rewrite (advanced_gains_loop_invalid _ _ _ _ _ _ _ Hl Hv Hbad).
    reflexivity.
  - intros i Hi. cbn [stored equalizer set_equalizer].
    apply apply_gains_lookup. rewrite Hl. exact Hi.
  - apply clamp_gain_spec.
Qed.
Lemma set_gains_applies_entries_in_order_witness :
  AdvancedPlayer.set_gains [(0, 3 # 2); (15, 1 # 2); (1, 1 # 2)]
                           (AdvancedPlayer.init "1" main_node, [])
  = (Raise IndexError,
     (AdvancedPlayer.set_base
        (stored [(0, 3 # 2)] (init "1" main_node))
        (AdvancedPlayer.init "1" main_node), [])).
Proof.
  refine (proj1 (proj2 (set_gains_applies_entries_in_order
                          (AdvancedPlayer.init "1" main_node) []
                          [(0, 3 # 2)] eq_refl _))
                15 (1 # 2) [(1, 1 # 2)] _).
  - repeat constructor; simpl; lia.
  - unfold valid_band. lia.
Defined.

(** The base variant has no test on the band: the list assignment takes
    a band from -15 to -1 for an index from the end. *)
Example basic_set_gains_negative_band :
  set_gains [(-1, 1 # 2)] (init "1" main_node, [])
  = (Return tt,
     (set_equalizer (<[14%nat := (1 # 2)%Q]> (replicate 15 0%Q))
                    (init "1" main_node),
      [Send main_node (OpEqualizer "1" [(-1, 1 # 2)])])).
Proof. reflexivity. Qed.

End GainsFacts.



(** ** The queueing player *)

Module AdvancedPlayerFacts.
Import AdvancedPlayer.




(** C2.  For the track of 200000 ms, [play] with a start time of 250000
    returns normally and sends the play command with [startTime] 250000:
    no range error is raised. *)
Theorem play_start_beyond_duration_is_sent :
  play (Some song) 250000 0 false 0 (init "1" main_node, [])
  = (Return tt,
     (set_base (BasicPlayer.set_current (Some song)
                  (BasicPlayer.init "1" main_node))
               (init "1" main_node),
      [Send main_node (OpPlay "1" (track song) (Some 250000) None None);
       Dispatch main_node (TrackStartEvent "1" song)])).
Proof. reflexivity. Qed.

(** The second example of the specification does succeed. *)
Example play_within_duration :
  play (Some song) 1000 2000 false 0 (init "1" main_node, [])
  = (Return tt,
     (set_base (BasicPlayer.set_current (Some song)
                  (BasicPlayer.init "1" main_node))
               (init "1" main_node),
      [Send main_node (OpPlay "1" (track song) (Some 1000) (Some 2000) None);
       Dispatch main_node (TrackStartEvent "1" song)])).
Proof. reflexivity. Qed.

(** C3, as stated, fails: the batch with a good entry before a band 15
    raises the range error after band 0 has been set. *)
Lemma set_gains_applies_entries_before_bad_band :
  fst (set_gains [(0, 1 # 2); (15, 1 # 2)] (init "1" main_node, []))
  = Raise IndexError
  /\ BasicPlayer.equalizer
       (base (fst (snd (set_gains [(0, 1 # 2); (15, 1 # 2)]
                                  (init "1" main_node, [])))))
     <> BasicPlayer.equalizer (base (init "1" main_node)).
Proof. split; [reflexivity|]. intros H. discriminate H. Qed.

(** C8, as stated, fails: with [repeat] set and a current track, [play]
    on an empty queue puts the current track back in the queue first, so
    no stop command is sent and the current track stays. *)
Lemma play_repeat_on_empty_queue_does_not_stop :
  queue repeating_player = []
  /\ only is_stop (snd (snd (play None 0 0 false 0 (repeating_player, []))))
     = []
  /\ BasicPlayer.current
       (base (fst (snd (play None 0 0 false 0 (repeating_player, [])))))
     = Some song.
Proof. repeat split. Qed.

(** C8, amended.  When the queue is empty and [repeat] does not put a
    current track back in it, [play] without a track returns normally,
    sends a stop command and then dispatches a queue-end event, and leaves
    no current track. *)
Theorem play_on_empty_queue_stops p log start_time end_time no_replace draw :
  queue p = [] ->
  repeat p = false \/ BasicPlayer.current (base p) = None ->
  let r := play None start_time end_time no_replace draw (p, log) in
  let b := base p in
  fst r = Return tt
  /\ snd (snd r)
     = log ++ [Send (BasicPlayer.node b) (OpStop (BasicPlayer.guild_id b));
               Dispatch (BasicPlayer.node b)
                        (QueueEndEvent (BasicPlayer.guild_id b))]
  /\ BasicPlayer.current (base (fst (snd r))) = None
  /\ queue (fst (snd r)) = [].
Proof.
  intros Hq Hrep r b. subst r b.
  assert (Hno : current_to_repeat p = None).
  { unfold current_to_repeat. destruct Hrep as [-> | ->]; [reflexivity|].
    destruct (repeat p); reflexivity. }
  unfold play. run. rewrite Hno. run_adv.
  cbn [queue set_base]. rewrite Hq. run_adv.
  rewrite <- app_assoc. repeat split. exact Hq.
Qed.

Lemma play_on_empty_queue_stops_witness :
  snd (snd (play None 0 0 false 0 (init "1" main_node, [])))
  = [Send main_node (OpStop "1"); Dispatch main_node (QueueEndEvent "1")].
Proof.
  exact (proj1 (proj2 (play_on_empty_queue_stops
                         (init "1" main_node) [] 0 0 false 0
                         eq_refl (or_introl eq_refl)))).
Defined.

(** With a track queued, the call [self.queue.pop(pop_at)] on the deque
    raises: nothing is removed, nothing is sent. *)
Example play_from_queue_raises :
  play None 0 0 false 0 (queued_player, [])
  = (Raise TypeError,
     (set_base (BasicPlayer.set_current (Some song)
                  (BasicPlayer.init "1" main_node))
               queued_player, [])).
Proof. reflexivity. Qed.





(** A player that is playing [song], paused, is told to play
    [other_song] with [no_replace]: the local track is replaced. *)
Example play_no_replace_example :
  BasicPlayer.current
    (fst (snd (BasicPlayer.play other_song 0 0 true (tuned_player, []))))
  = Some other_song
  /\ BasicPlayer.paused
       (fst (snd (BasicPlayer.play other_song 0 0 true (tuned_player, []))))
     = false.
Proof. split; reflexivity. Qed.

(** C10.  A track-end event whose reason is not ["FINISHED"] leaves the
    player and the trace as they are, in the base variant and in the
    queueing variant: no field changes, the queue is kept and [play] is
    not called. *)
Theorem track_end_other_reason_changes_nothing
        (player : string) (tr : option AudioTrack) (reason : string) :
  reason <> "FINISHED"%string ->
  (forall w,
      BasicPlayer._handle_event (TrackEndEvent player tr reason) w
      = (Return tt, w))
  /\ (forall draw w,
        _handle_event (TrackEndEvent player tr reason) draw w
        = (Return tt, w)).
Proof.
  intros Hr.
  assert (H : BasicPlayer.is_terminal (TrackEndEvent player tr reason) = false)
    by (cbn; apply bool_decide_eq_false; exact Hr).
  unfold BasicPlayer._handle_event, _handle_event. rewrite H.
  split; reflexivity.
Qed.

Lemma track_end_other_reason_changes_nothing_witness :
  _handle_event (TrackEndEvent "1" (Some song) "REPLACED") 0
                (queued_player, [])
  = (Return tt, (queued_player, [])).
Proof.
  apply (track_end_other_reason_changes_nothing "1" (Some song) "REPLACED").
  intros H. discriminate H.
Defined.

(** Calling [play] can be told from doing nothing: it sends, or raises. *)
Lemma play_leaves_a_mark start_time end_time no_replace draw w :
  play None start_time end_time no_replace draw w <> (Return tt, w).
Proof.
  destruct w as [p log]. unfold play. run.
  destruct (current_to_repeat p) as [cur|]; run_adv; cbn [queue set_base].
  - destruct (queue p); cbn [app]; unfold deque_pop; run; discriminate.
  - destruct (queue p); unfold deque_pop; run_adv; [|discriminate].
    intros H. injection H as _ H. rewrite <- app_assoc in H.
    apply (f_equal length) in H. rewrite length_app in H. simpl in H. lia.
Qed.

(** With the reason ["FINISHED"] the queueing handler is a call of
    [play]. *)
Lemma track_end_finished_plays player tr draw w :
  _handle_event (TrackEndEvent player tr "FINISHED") draw w
  = play None 0 0 false draw w.
Proof. reflexivity. Qed.

End AdvancedPlayerFacts.

(** * More facts *)

Module ChannelMore.
Import WebSocket WebSocketFacts.

Lemma sleeps_app tr1 tr2 : sleeps (tr1 ++ tr2) = sleeps tr1 ++ sleeps tr2.
Proof. apply omap_app. Qed.

Lemma warnings_app tr1 tr2 :
  warnings (tr1 ++ tr2) = warnings tr1 ++ warnings tr2.
Proof. apply omap_app. Qed.

Lemma headers_app tr1 tr2 : headers (tr1 ++ tr2) = headers tr1 ++ headers tr2.
Proof. apply omap_app. Qed.

Lemma sleeps_map_SendJson ms : sleeps (map SendJson ms) = [].
Proof. induction ms; simpl; auto. Qed.

Lemma warnings_map_SendJson ms : warnings (map SendJson ms) = [].
Proof. induction ms; simpl; auto. Qed.

Lemma headers_map_SendJson ms : headers (map SendJson ms) = [].
Proof. induction ms; simpl; auto. Qed.

Lemma backoffs_succ attempt n :
  backoffs attempt (S n)
  = Z.min (10 * (attempt + 1)) 60 :: backoffs (attempt + 1) n.
Proof.
  unfold backoffs. cbn [seq map]. f_equal.
  rewrite <- seq_shift, map_map. apply map_ext. intros k.
  f_equal. lia.
Qed.

(** One failed attempt that the handler does not return from. *)
Lemma failed_attempt hdr attempt o s tr :
  is_failure o = true ->
  negb ((attempt + 1 =? 1) && is_auth_rejection o) = true ->
  exists ws_,
    on_failure (attempt + 1) o (emit (WsConnect hdr) (s, tr))
    = (false,
       (s, tr ++ [WsConnect hdr] ++ map Warning ws_
              ++ [Sleep (Z.min (10 * (attempt + 1)) 60)]))
    /\ (1 <= attempt -> ws_ = [])
    /\ (List.length ws_ <= 2)%nat.
Proof.
  intros Hfail Hauth. unfold on_failure, emit. cbn [fst snd].
  rewrite py_min_is_min.
  destruct (attempt + 1 =? 1) eqn:E1.
  - destruct o as [| |status]; try discriminate.
    + exists [FailedToEstablish; MaybeNotRunning].
      cbn [fst snd]. rewrite <- !app_assoc.
      split; [reflexivity|]. split; [lia|simpl; lia].
    + cbn in Hauth. destruct (status =? 401); [discriminate|].
      destruct (status =? 101); cbn [negb].
      * exists [FailedToEstablish]. cbn [fst snd]. rewrite <- !app_assoc.
        split; [reflexivity|]. split; [lia|simpl; lia].
      * exists [FailedToEstablish; UnexpectedCode status].
        cbn [fst snd]. rewrite <- !app_assoc.
        split; [reflexivity|]. split; [lia|simpl; lia].
  - exists []. cbn [fst snd]. rewrite <- !app_assoc. split; [reflexivity|].
    split; [reflexivity|simpl; lia].
Qed.

Lemma warnings_map_Warning ws_ : warnings (map Warning ws_) = ws_.
Proof. induction ws_; simpl; congruence. Qed.

Lemma retry_prefix_trace hdr fs : forall rest attempt s tr,
  0 <= attempt ->
  connected s = false ->
  retryable attempt fs = true ->
  exists tr',
    connect_loop hdr (fs ++ rest) attempt (s, tr)
    = connect_loop hdr rest (attempt + Z.of_nat (List.length fs)) (s, tr ++ tr')
    /\ transmitted tr' = []
    /\ headers tr' = replicate (List.length fs) hdr
    /\ sleeps tr' = backoffs attempt (List.length fs)
    /\ (1 <= attempt -> warnings tr' = [])
    /\ (List.length (warnings tr') <= 2)%nat.
Proof.
  induction fs as [|o fs IH]; intros rest attempt s tr H0 Hs Hr.
  - exists []. rewrite app_nil_r, Z.add_0_r. repeat split; simpl; lia.
  - simpl in Hr. apply andb_true_iff in Hr as [Hr Hfs].
    apply andb_true_iff in Hr as [Hfail Hauth].
    destruct (failed_attempt hdr attempt o s tr Hfail Hauth)
      as (ws_ & Hstep & Hw1 & Hw2).
    set (tr1 := [WsConnect hdr] ++ map Warning ws_
                  ++ [Sleep (Z.min (10 * (attempt + 1)) 60)]) in *.
    destruct (IH rest (attempt + 1) s (tr ++ tr1) ltac:(lia) Hs Hfs)
      as (tr2 & Hloop & Ht2 & Hh2 & Hs2 & Hw3 & _).
    exists (tr1 ++ tr2). subst tr1. split; [|split; [|split; [|split; [|split]]]].
    + cbn [app connect_loop fst]. rewrite Hs.
      destruct o; try discriminate; rewrite Hstep, Hloop;
        rewrite <- !app_assoc;
        (replace (attempt + 1 + Z.of_nat (List.length fs))
           with (attempt + Z.of_nat (S (List.length fs))) by lia); reflexivity.
    + rewrite !transmitted_app, Ht2. simpl.
      clear. induction ws_; simpl; auto.
    + cbn [List.length]. rewrite !headers_app, Hh2. simpl.
      replace (headers (map Warning ws_)) with (@nil (option string))
        by (clear; induction ws_; simpl; auto).
      reflexivity.
    + cbn [List.length]. rewrite !sleeps_app, Hs2, backoffs_succ. simpl.
      replace (sleeps (map Warning ws_)) with (@nil Z)
        by (clear; induction ws_; simpl; auto).
      reflexivity.
    + intros Ha. rewrite !warnings_app, warnings_map_Warning.
      rewrite (Hw1 Ha), Hw3 by lia. reflexivity.
    + rewrite !warnings_app, warnings_map_Warning, Hw3 by lia.
      simpl. rewrite !app_nil_r. exact Hw2.
Qed.

(** A successful run, as an equation. *)
Lemma connect_success s tr fs rest :
  connected s = false ->
  retryable 0 fs = true ->
  exists tr',
    connect (fs ++ Established :: rest) (s, tr)
    = (LoopLeft,
       (established_state s,
        tr ++ tr' ++ [WsConnect (resume_header s); NodeConnect; Listen]
           ++ map SendJson (resume_list s ++ message_queue s)))
    /\ transmitted tr' = []
    /\ headers tr' = replicate (List.length fs) (resume_header s)
    /\ sleeps tr' = backoffs 0 (List.length fs)
    /\ (List.length (warnings tr') <= 2)%nat.
Proof.
  intros Hs Hfs. unfold connect. cbn [fst].
  destruct (retry_prefix_trace (resume_header s) fs (Established :: rest)
              0 s tr ltac:(lia) Hs Hfs)
    as (tr' & Hloop & Ht & Hh & Hsl & _ & Hw).
  exists tr'. rewrite Hloop. cbn [connect_loop fst snd]. rewrite Hs.
  unfold emit at 1. cbn [fst snd]. rewrite on_established_spec.
  repeat split; try assumption.
  destruct rest; cbn [connect_loop fst];
    cbn [connected established_state ws closed negb];
    unfold emit; cbn [fst snd]; rewrite <- ?app_assoc; reflexivity.
Qed.

Lemma backoffs_zero n :
  backoffs 0 n = map (fun k => Z.min (10 * Z.of_nat k) 60) (seq 1 n).
Proof. unfold backoffs. apply map_ext. intros k. f_equal. Qed.

Lemma backoffs_bounds attempt n :
  0 <= attempt -> Forall (fun b => 10 <= b <= 60) (backoffs attempt n).
Proof.
  intros Ha. unfold backoffs. apply Forall_forall. intros b Hb.
  apply list_elem_of_In, in_map_iff in Hb as (k & <- & Hk).
  apply in_seq in Hk. lia.
Qed.

(** X1.  The waits of a run of failed attempts are 10, 20, ..., capped at
    60: after the k-th failed attempt the channel sleeps the smaller of
    10 k and 60, whether the run ends with the script or with a
    success. *)
Theorem connect_backoff_schedule s tr fs rest :
  connected s = false ->
  retryable 0 fs = true ->
  let schedule :=
    map (fun k => Z.min (10 * Z.of_nat k) 60) (seq 1 (List.length fs)) in
  sleeps (snd (snd (connect fs (s, tr)))) = sleeps tr ++ schedule
  /\ sleeps (snd (snd (connect (fs ++ Established :: rest) (s, tr))))
     = sleeps tr ++ schedule
  /\ Forall (fun b => 10 <= b <= 60) schedule.
Proof.
  intros Hs Hfs schedule. subst schedule. rewrite <- backoffs_zero.
  split; [|split].
  - unfold connect. cbn [fst].
    destruct (retry_prefix_trace (resume_header s) fs [] 0 s tr
                ltac:(lia) Hs Hfs) as (tr' & Hloop & _ & _ & Hsl & _).
    rewrite app_nil_r in Hloop. rewrite Hloop. cbn [connect_loop fst].
    rewrite Hs. cbn [snd]. rewrite sleeps_app, Hsl. reflexivity.
  - destruct (connect_success s tr fs rest Hs Hfs)
      as (tr' & Hrun & _ & _ & Hsl & _).
    rewrite Hrun. cbn [snd]. rewrite !sleeps_app, Hsl, sleeps_map_SendJson.
    simpl. rewrite app_nil_r. reflexivity.
  - apply backoffs_bounds. lia.
Qed.

Lemma connect_backoff_schedule_witness :
  sleeps (snd (snd (connect
                      [ClientConnectorError; WSServerHandshakeError 503;
                       ClientConnectorError; ClientConnectorError;
                       ClientConnectorError; ClientConnectorError;
                       ClientConnectorError; Established]
                      (plain_channel, []))))
  = [10; 20; 30; 40; 50; 60; 60].
Proof.
  exact (proj1 (proj2 (connect_backoff_schedule
                         plain_channel []
                         [ClientConnectorError; WSServerHandshakeError 503;
                          ClientConnectorError; ClientConnectorError;
                          ClientConnectorError; ClientConnectorError;
                          ClientConnectorError] [] eq_refl eq_refl))).
Defined.

(** After the first attempt the loop adds no warning. *)
Lemma connect_loop_quiet hdr script : forall attempt w,
  1 <= attempt ->
  warnings (snd (snd (connect_loop hdr script attempt w))) = warnings (snd w).
Proof.
  induction script as [|o script IH]; intros attempt [s tr] Ha;
    cbn [connect_loop fst snd].
  - destruct (connected s); reflexivity.
  - destruct (connected s); [reflexivity|].
    destruct o.
    + unfold emit at 1. cbn [fst snd]. rewrite on_established_spec.
      rewrite IH by lia. cbn [snd].
      repeat (rewrite ?warnings_app, ?warnings_map_SendJson; simpl;
              rewrite ?app_nil_r). reflexivity.
    + unfold on_failure. replace (attempt + 1 =? 1) with false by lia.
      cbn. rewrite IH by lia. cbn.
      repeat (rewrite ?warnings_app; simpl; rewrite ?app_nil_r). reflexivity.
    + unfold on_failure. replace (attempt + 1 =? 1) with false by lia.
      cbn. rewrite IH by lia. cbn.
      repeat (rewrite ?warnings_app; simpl; rewrite ?app_nil_r). reflexivity.
Qed.

(** The warnings of a run are decided by its first attempt. *)
Lemma connect_warnings o rest s tr :
  warnings (snd (snd (connect (o :: rest) (s, tr))))
  = if connected s then warnings tr
    else match o with
         | Established => warnings tr
         | _ => warnings
                  (snd (snd (on_failure 1 o
                               (emit (WsConnect (resume_header s)) (s, tr)))))
         end.
Proof.
  unfold connect. cbn [connect_loop fst snd].
  destruct (connected s); [reflexivity|].
  change (0 + 1) with 1.
  destruct o.
  - rewrite connect_loop_quiet by lia.
    unfold emit at 1. cbn [fst snd]. rewrite on_established_spec. cbn [snd].
    repeat (rewrite ?warnings_app, ?warnings_map_SendJson; simpl;
            rewrite ?app_nil_r). reflexivity.
  - destruct (on_failure 1 _ _) as [[|] w]; [reflexivity|].
    rewrite connect_loop_quiet by lia. reflexivity.
  - destruct (on_failure 1 _ _) as [[|] w]; [reflexivity|].
    rewrite connect_loop_quiet by lia. reflexivity.
Qed.

(** X2.  Only the first attempt of a call of [connect] warns: the
    warnings of a run are those of its first attempt alone, whatever
    follows, and a call adds at most two of them. *)
Theorem connect_warns_on_first_attempt_only o rest s tr :
  warnings (snd (snd (connect (o :: rest) (s, tr))))
  = warnings (snd (snd (connect [o] (s, tr))))
  /\ (List.length (warnings (snd (snd (connect (o :: rest) (s, tr))))) <=
      List.length (warnings tr) + 2)%nat.
Proof.
  split; [rewrite (connect_warnings o rest), (connect_warnings o []); reflexivity|].
  rewrite connect_warnings.
  destruct (connected s); [lia|].
  destruct o as [| |status]; [lia| |].
  - cbn. rewrite !warnings_app, !length_app. simpl. lia.
  - unfold on_failure, emit. cbn [fst snd]. change (1 =? 1) with true.
    cbn iota.
    destruct (status =? 401); [cbn; rewrite !warnings_app, !length_app; simpl; lia|].
    destruct (status =? 101); cbn;
      rewrite !warnings_app, !length_app; simpl; lia.
Qed.

(** A failed attempt leaves the channel as it is and transmits nothing. *)
Lemma on_failure_keeps attempt o s tr :
  fst (snd (on_failure attempt o (s, tr))) = s
  /\ transmitted (snd (snd (on_failure attempt o (s, tr)))) = transmitted tr.
Proof.
  unfold on_failure, emit. cbn [fst snd].
  destruct (attempt =? 1); [destruct o as [| |status]|]; cbn [fst snd];
    try destruct (status =? 401); try destruct (status =? 101);
    cbn [fst snd negb];
    (split; [reflexivity|]);
    repeat (rewrite ?transmitted_app; simpl; rewrite ?app_nil_r); reflexivity.
Qed.

Lemma connect_loop_failures hdr fs : forall attempt s tr,
  forallb is_failure fs = true ->
  connected s = false ->
  fst (connect_loop hdr fs attempt (s, tr)) <> LoopLeft
  /\ fst (snd (connect_loop hdr fs attempt (s, tr))) = s
  /\ transmitted (snd (snd (connect_loop hdr fs attempt (s, tr))))
     = transmitted tr.
Proof.
  induction fs as [|o fs IH]; intros attempt s tr Hf Hs;
    cbn [connect_loop fst snd]; rewrite Hs.
  - repeat split. discriminate.
  - cbn [forallb] in Hf. apply andb_true_iff in Hf as [Ho Hf].
    unfold emit at 1. cbn [fst snd].
    destruct (on_failure_keeps (attempt + 1) o s (tr ++ [WsConnect hdr]))
      as [Hk1 Hk2].
    rewrite transmitted_app in Hk2. simpl in Hk2. rewrite app_nil_r in Hk2.
    destruct o; try discriminate;
      destruct (on_failure (attempt + 1) _ _) as [[|] [s' tr']];
      cbn [fst snd] in *; subst s';
      try (repeat split; [discriminate|exact Hk2]);
      destruct (IH (attempt + 1) s tr' Hf Hs) as (H1 & H2 & H3);
      (split; [exact H1|split; [exact H2|congruence]]).
Qed.

(** X3.  However [connect] fails - retrying until the script ends, or
    returning on a rejected authentication - it leaves the channel as it
    was: the buffered messages are kept, in order, and nothing is
    transmitted. *)
Theorem connect_failures_keep_buffer fs s tr :
  forallb is_failure fs = true ->
  connected s = false ->
  fst (connect fs (s, tr)) <> LoopLeft
  /\ fst (snd (connect fs (s, tr))) = s
  /\ message_queue (fst (snd (connect fs (s, tr)))) = message_queue s
  /\ transmitted (snd (snd (connect fs (s, tr)))) = transmitted tr.
Proof.
  intros Hf Hs. unfold connect. cbn [fst].
  destruct (connect_loop_failures (resume_header s) fs 0 s tr Hf Hs)
    as (H1 & H2 & H3).
  repeat split; try assumption. rewrite H2. reflexivity.
Qed.

Lemma connect_failures_keep_buffer_witness :
  message_queue
    (fst (snd (connect [ClientConnectorError; WSServerHandshakeError 401;
                        WSServerHandshakeError 500]
                       (resuming_channel, []))))
  = [OpStop "1"].
Proof.
  exact (proj1 (proj2 (proj2 (connect_failures_keep_buffer
                                [ClientConnectorError;
                                 WSServerHandshakeError 401;
                                 WSServerHandshakeError 500]
                                resuming_channel [] eq_refl eq_refl)))).
Defined.

Lemma attempts_headers tr : attempts tr = List.length (headers tr).
Proof.
  unfold attempts, headers. induction tr as [|a tr IH]; [reflexivity|].
  rewrite filter_cons.
  destruct a; cbn [is_attempt omap list_omap];
    destruct (decide _) as [H|H]; try discriminate H;
    try (exfalso; apply H; reflexivity);
    cbn [List.length]; rewrite ?IH; reflexivity.
Qed.

Lemma connect_loop_connected hdr script attempt w :
  connected (fst w) = true ->
  connect_loop hdr script attempt w = (LoopLeft, w).
Proof. intros H. destruct script; cbn [connect_loop]; rewrite H; reflexivity. Qed.

Lemma connect_loop_after_success hdr rest fs : forall attempt w,
  connect_loop hdr (fs ++ Established :: rest) attempt w
  = connect_loop hdr (fs ++ [Established]) attempt w.
Proof.
  assert (Hlive : forall s tr,
             connected (fst (on_established
                               (set_ws (Some (Socket false)) s, tr))) = true)
    by (intros; rewrite on_established_spec; reflexivity).
  induction fs as [|o fs IH]; intros attempt [s tr]; cbn [app connect_loop fst snd].
  - destruct (connected s); [reflexivity|].
    unfold emit. cbn [fst snd].
    rewrite connect_loop_connected by apply Hlive.
    rewrite Hlive. reflexivity.
  - destruct (connected s); [reflexivity|].
    destruct o.
    + unfold emit. cbn [fst snd].
      rewrite !connect_loop_connected by apply Hlive. reflexivity.
    + destruct (on_failure _ _ _) as [[|] w]; [reflexivity|apply IH].
    + destruct (on_failure _ _ _) as [[|] w]; [reflexivity|apply IH].
Qed.

(** X4.  [connect] stops at the first success: the outcomes that the
    script holds after it are not consumed, the number of attempts is the
    number of failures plus one, and a further call of [connect] on the
    connected channel does nothing. *)
Theorem connect_stops_at_first_success s tr fs rest again :
  connected s = false ->
  retryable 0 fs = true ->
  let r := connect (fs ++ Established :: rest) (s, tr) in
  r = connect (fs ++ [Established]) (s, tr)
  /\ attempts (snd (snd r)) = (attempts tr + List.length fs + 1)%nat
  /\ connect again (snd r) = (LoopLeft, snd r).
Proof.
  intros Hs Hfs r. subst r.
  destruct (connect_success s tr fs rest Hs Hfs)
    as (tr1 & Hrun & _ & Hh & _).
  split; [|split].
  - unfold connect. apply connect_loop_after_success.
  - rewrite Hrun. cbn [snd]. rewrite !attempts_headers.
    rewrite !headers_app, Hh, headers_map_SendJson. simpl.
    rewrite !length_app, length_replicate. simpl. lia.
  - rewrite Hrun. cbn [snd]. unfold connect.
    apply connect_loop_connected. reflexivity.
Qed.

Lemma connect_stops_at_first_success_witness :
  connect [ClientConnectorError; Established; ClientConnectorError]
          (resuming_channel, [])
  = connect [ClientConnectorError; Established] (resuming_channel, []).
Proof.
  exact (proj1 (connect_stops_at_first_success
                  resuming_channel [] [ClientConnectorError]
                  [ClientConnectorError] [] eq_refl eq_refl)).
Defined.

Lemma resume_request_key s k tmo :
  resume_request s = Some (OpConfigureResuming k tmo) ->
  resuming_configured s = false /\ truthy_key (resume_key s) = Some k.
Proof.
  unfold resume_request. destruct (resuming_configured s); [discriminate|].
  destruct (truthy_key (resume_key s)) as [k'|]; [|discriminate].
  destruct (resume_timeout s) as [t0|]; [|discriminate].
  destruct (_ && _); [|discriminate]. intros H. injection H as -> _. auto.
Qed.

(** X5.  Resuming is configured once.  A channel that owes the
    [configureResuming] message sends it on its first successful connect
    and not on the reconnect that follows a close; the attempts of the
    first connect carry no [Resume-Key] header, those of the reconnect all
    carry the key. *)
Theorem resume_configured_once s tr k tmo fs rest code reason fs2 rest2 :
  connected s = false ->
  resume_request s = Some (OpConfigureResuming k tmo) ->
  retryable 0 fs = true ->
  retryable 0 fs2 = true ->
  let w1 := snd (connect (fs ++ Established :: rest) (s, tr)) in
  let w2 := snd (_websocket_closed code reason
                                   (fs2 ++ Established :: rest2) w1) in
  transmitted (snd w2)
  = transmitted tr ++ OpConfigureResuming k tmo :: message_queue s
  /\ headers (snd w2)
     = headers tr ++ replicate (S (List.length fs)) None
                  ++ replicate (S (List.length fs2)) (Some k).
Proof.
  intros Hs Hreq Hfs Hfs2 w1 w2. subst w2 w1.
  destruct (resume_request_key s k tmo Hreq) as [Hconf Hkey].
  destruct (connect_success s tr fs rest Hs Hfs)
    as (tr1 & Hrun & Ht1 & Hh1 & _).
  rewrite Hrun. cbn [snd]. unfold _websocket_closed, emit. cbn [fst snd].
  set (s1 := set_ws None (established_state s)).
  assert (Hs1 : connected s1 = false) by reflexivity.
  assert (Hhdr1 : resume_header s1 = Some k).
  { unfold resume_header, s1. cbn. rewrite Hreq. cbn.
    rewrite orb_true_r. exact Hkey. }
  assert (Hreq1 : resume_list s1 = []).
  { unfold resume_list, resume_request, s1. cbn. rewrite Hreq. cbn.
    rewrite orb_true_r. reflexivity. }
  match goal with
  | |- context [connect _ (s1, ?t)] =>
      destruct (connect_success s1 t fs2 rest2 Hs1 Hfs2)
        as (tr2 & Hrun2 & Ht2 & Hh2 & _)
  end.
  rewrite Hrun2. cbn [snd]. rewrite Hreq1, Hhdr1 in *.
  assert (Hhdr : resume_header s = None)
    by (unfold resume_header; rewrite Hconf; reflexivity).
  rewrite Hhdr in *.
  unfold resume_list. rewrite Hreq. cbn [option_list app].
  split.
  - repeat (rewrite ?transmitted_app, ?transmitted_map_SendJson, ?Ht1, ?Ht2;
            cbn [transmitted omap list_omap app message_queue s1 set_ws established_state]).
    simpl. rewrite ?app_nil_r. reflexivity.
  - rewrite !replicate_S_end.
    repeat (rewrite ?headers_app, ?headers_map_SendJson, ?Hh1, ?Hh2;
            cbn [headers omap list_omap app]).
    simpl. rewrite ?app_nil_r.
    rewrite <- ?app_assoc. reflexivity.
Qed.

Lemma resume_configured_once_witness :
  headers (snd (snd (_websocket_closed
                       (Some 1006) None [ClientConnectorError; Established]
                       (snd (connect [Established] (resuming_channel, []))))))
  = [None; Some "key"%string; Some "key"%string].
Proof.
  exact (proj2 (resume_configured_once
                  resuming_channel [] "key" 60 [] [] (Some 1006) None
                  [ClientConnectorError] [] eq_refl eq_refl eq_refl eq_refl)).
Defined.

End ChannelMore.

Module PlayerMore.
Import BasicPlayer.

(** X6.  The computed position never goes back as the clock advances,
    and an unpaused playing player reaches the duration of its track and
    stays there.  It is not negative when the last known position is not
    negative, the clock is not before the last update and the duration is
    not negative. *)
Theorem position_monotone_in_clock (p : t) (now now' : Z) :
  (now <= now' -> position now p <= position now' p)
  /\ (forall cur,
        current p = Some cur -> is_playing p = true -> paused p = false ->
        duration cur <= _last_position p + (now - _last_update p) ->
        position now p = duration cur)
  /\ (0 <= _last_position p -> _last_update p <= now ->
      (forall cur, current p = Some cur -> 0 <= duration cur) ->
      0 <= position now p).
Proof.
  unfold position. split; [|split].
  - intros Hle. destruct (current p) as [cur|]; [|lia].
    destruct (is_playing p); cbn [negb]; [|lia].
    destruct (paused p); rewrite !py_min_is_min; lia.
  - intros cur Hc Hp Hq Hd. rewrite Hc, Hp, Hq. cbn [negb].
    rewrite py_min_is_min. lia.
  - intros Hpos Hup Hdur. destruct (current p) as [cur|] eqn:Hc; [|lia].
    specialize (Hdur cur eq_refl).
    destruct (is_playing p); cbn [negb]; [|lia].
    destruct (paused p); rewrite !py_min_is_min; lia.
Qed.

(** X7.  A player update sets the anchors: for a connected, unpaused
    player with a current track, the position [dt] milliseconds after an
    update that reported [pos] is the smaller of [pos + dt] and the
    duration; a report without position counts as 0.  The update is
    announced by one player-update event with the reported position and
    time, and nothing is sent. *)
Theorem update_state_sets_position p log now pos time dt cur :
  current p = Some cur ->
  is_connected p = true ->
  paused p = false ->
  let r := _update_state now pos time (p, log) in
  let p' := fst (snd r) in
  fst r = Return tt
  /\ position (now + dt) p' = Z.min (default 0 pos + dt) (duration cur)
  /\ snd (snd r)
     = log ++ [Dispatch (node p)
                        (PlayerUpdateEvent (guild_id p) (default 0 pos)
                                           (default 0 time))].
Proof.
  intros Hc Hconn Hp r p'. subst p' r. unfold _update_state. run.
  split; [reflexivity|]. split; [|reflexivity].
  unfold position, is_playing, is_connected in *. simpl.
  rewrite Hc, Hconn, Hp. cbn.
  rewrite py_min_is_min. f_equal. lia.
Qed.

Lemma update_state_sets_position_witness :
  position (5000 + 250)
           (fst (snd (_update_state 5000 (Some 90000) (Some 4990)
                                    (set_paused false tuned_player, []))))
  = Z.min (90000 + 250) 200000.
Proof.
  exact (proj1 (proj2 (update_state_sets_position
                         (set_paused false tuned_player) [] 5000
                         (Some 90000) (Some 4990) 250 song
                         eq_refl eq_refl eq_refl))).
Defined.

(** X8.  What the commands do to the computed position of a connected
    player.  [play] resets the anchors to 0, so until a player update
    arrives the position is the smaller of the clock reading and the
    duration.  [set_pause true] keeps the anchors, so the position falls
    back to the last reported one (capped by the duration).  [seek] leaves
    the player as it is and sends one seek command.  After [stop] the
    position is 0. *)
Theorem commands_and_position p log now :
  is_connected p = true ->
  (forall tr start_time end_time no_replace,
      position now
               (fst (snd (play tr start_time end_time no_replace (p, log))))
      = Z.min now (duration tr))
  /\ (forall cur,
        current p = Some cur ->
        position now (fst (snd (set_pause true (p, log))))
        = Z.min (_last_position p) (duration cur))
  /\ (forall pos,
        seek pos (p, log)
        = (Return tt, (p, log ++ [Send (node p) (OpSeek (guild_id p) pos)])))
  /\ position now (fst (snd (stop (p, log)))) = 0.
Proof.
  intros Hconn. unfold is_connected in Hconn.
  split; [|split; [|split]].
  - intros tr st et nr. unfold play. run. unfold position, is_playing, is_connected.
    cbn. rewrite Hconn. cbn. rewrite py_min_is_min. f_equal. lia.
  - intros cur Hc. unfold set_pause. run. unfold position, is_playing, is_connected.
    cbn. rewrite Hc, Hconn. cbn. apply py_min_is_min.
  - intros pos. reflexivity.
  - reflexivity.
Qed.

Lemma commands_and_position_witness :
  position 1700000000000
           (fst (snd (play song 1000 2000 false (tuned_player, []))))
  = Z.min 1700000000000 200000.
Proof.
  exact (proj1 (commands_and_position tuned_player [] 1700000000000 eq_refl)
               song 1000 2000 false).
Defined.

End PlayerMore.

Module VoiceMore.
Import BasicPlayer.

Lemma voice_keys_lookup (v : gmap string string) :
  dom v = voice_keys ->
  is_Some (v !! "sessionId") /\ is_Some (v !! "event").
Proof.
  intros H. split; apply elem_of_dom; rewrite H; unfold voice_keys; set_solver.
Qed.

Lemma dom_event_only (data : string) :
  dom (<["event" := data]> (∅ : gmap string string)) <> voice_keys.
Proof.
  intros H. apply voice_keys_lookup in H as [[x Hx] _].
  rewrite lookup_insert_ne in Hx by discriminate. 
  rewrite lookup_empty in Hx. discriminate.
Qed.

Lemma dom_session_only (sid : string) :
  dom (<["sessionId" := sid]> (∅ : gmap string string)) <> voice_keys.
Proof.
  intros H. apply voice_keys_lookup in H as [_ [x Hx]].
  rewrite lookup_insert_ne in Hx by discriminate. 
  rewrite lookup_empty in Hx. discriminate.
Qed.

Lemma dom_both (sid data : string) :
  dom (<["sessionId" := sid]> (<["event" := data]> (∅ : gmap string string)))
  = voice_keys.
Proof. rewrite !dom_insert_L, dom_empty_L. unfold voice_keys. set_solver. Qed.

Lemma dom_both' (sid data : string) :
  dom (<["event" := data]> (<["sessionId" := sid]> (∅ : gmap string string)))
  = voice_keys.
Proof. rewrite !dom_insert_L, dom_empty_L. unfold voice_keys. set_solver. Qed.

(** X9.  A voice handler sends at most one message, and a voice update
    is only ever sent with both the session id and the server event in
    it: the message carries the whole voice dictionary, whose keys are
    then exactly those two. *)
Theorem voice_update_carries_both_keys p log :
  (forall data,
      let r := _voice_server_update data (p, log) in
      fst r = Return tt
      /\ exists out, snd (snd r) = log ++ out
                     /\ voice_step p (_voice_state (fst (snd r))) out)
  /\ (forall session_id chan,
        let r := _voice_state_update session_id chan (p, log) in
        fst r = Return tt
        /\ exists out, snd (snd r) = log ++ out
                       /\ voice_step p (_voice_state (fst (snd r))) out).
Proof.
  assert (Hd : forall q lg,
             node q = node p -> guild_id q = guild_id p ->
             fst (_dispatch_voice_update (q, lg)) = Return tt
             /\ fst (snd (_dispatch_voice_update (q, lg))) = q
             /\ exists out,
                 snd (snd (_dispatch_voice_update (q, lg))) = lg ++ out
                 /\ voice_step p (_voice_state q) out).
  { intros q lg Hn Hg. unfold _dispatch_voice_update. run.
    destruct (bool_decide _) eqn:E; run.
    - apply bool_decide_eq_true in E. repeat split.
      exists [Send (node q) (OpVoiceUpdate (guild_id q) (_voice_state q))].
      split; [reflexivity|]. right. rewrite Hn, Hg.
      split; [reflexivity|]. split; [exact E|].
      apply VoiceMore.voice_keys_lookup, E.
    - repeat split. exists []. rewrite app_nil_r. split; [reflexivity|].
      left. reflexivity. }
  split.
  - intros data r. subst r. unfold _voice_server_update. run.
    match goal with
    | |- context [_dispatch_voice_update (?q, ?lg)] =>
        destruct (Hd q lg eq_refl eq_refl) as (H1 & H2 & H3)
    end.
    destruct (_dispatch_voice_update _) as [res [q' lg']]. cbn [fst snd] in *.
    subst. split; [reflexivity|]. exact H3.
  - intros sid chan r. subst r. unfold _voice_state_update. run.
    destruct chan as [[|c|c]|]; run.
    2,3: match goal with
    | |- context [_dispatch_voice_update (?q, ?lg)] =>
        destruct (Hd q lg eq_refl eq_refl) as (H1 & H2 & H3)
    end;
    destruct (_dispatch_voice_update _) as [res [q' lg']]; cbn [fst snd] in *;
    subst; (split; [reflexivity|]); exact H3.
    all: split; [reflexivity|]; exists []; rewrite app_nil_r;
      (split; [reflexivity|left; reflexivity]).
Qed.

(** X10.  The voice handshake, in either order.  On a player whose
    voice dictionary is empty, the first of a server update and a state
    update (with a channel) sends nothing; the second sends the one voice
    update, with the session id and the server event. *)
Theorem voice_handshake_either_order p log data session_id c :
  _voice_state p = ∅ ->
  c <> 0 ->
  let both : gmap string string :=
    <["sessionId" := session_id]> (<["event" := data]> ∅) in
  let message := Send (node p) (OpVoiceUpdate (guild_id p) both) in
  (snd (snd (_voice_server_update data (p, log))) = log
   /\ snd (snd ((_voice_server_update data;;
                 _voice_state_update session_id (Some c)) (p, log)))
      = log ++ [message])
  /\ (snd (snd (_voice_state_update session_id (Some c) (p, log))) = log
      /\ snd (snd ((_voice_state_update session_id (Some c);;
                    _voice_server_update data) (p, log)))
         = log ++ [message]).
Proof.
  intros Hv Hc both message. subst both message.
  assert (Hone : bool_decide (dom (<["event" := data]> (∅ : gmap string string))
                              = {["sessionId"; "event"]}) = false)
    by (apply bool_decide_eq_false, dom_event_only).
  assert (Htwo : bool_decide (dom (<["sessionId" := session_id]>
                                     (∅ : gmap string string))
                              = {["sessionId"; "event"]}) = false)
    by (apply bool_decide_eq_false, dom_session_only).
  assert (Hb1 : bool_decide
                  (dom (<["sessionId" := session_id]>
                          (<["event" := data]> (∅ : gmap string string)))
                   = {["sessionId"; "event"]}) = true)
    by (apply bool_decide_eq_true, dom_both).
  assert (Hb2 : bool_decide
                  (dom (<["event" := data]>
                          (<["sessionId" := session_id]> (∅ : gmap string string)))
                   = {["sessionId"; "event"]}) = true)
    by (apply bool_decide_eq_true, dom_both').
  assert (Hcomm : <["event" := data]>
                    (<["sessionId" := session_id]> (∅ : gmap string string))
                  = <["sessionId" := session_id]> (<["event" := data]> ∅))
    by (apply insert_insert_ne; discriminate).
  unfold _voice_server_update, _voice_state_update, _dispatch_voice_update.
  destruct c as [|c|c]; [contradiction Hc; reflexivity| |];
    run; cbn [_voice_state set_voice_state set_channel_id];
    rewrite Hv, ?Hone, ?Htwo; run;
    cbn [_voice_state set_voice_state set_channel_id];
    rewrite ?Hb1, ?Hb2, ?Hone, ?Htwo; run;
    cbn [_voice_state set_voice_state set_channel_id node guild_id];
    rewrite ?Hcomm; repeat split.
Qed.

Lemma voice_handshake_either_order_witness :
  snd (snd ((_voice_state_update "session" (Some 5);;
             _voice_server_update "endpoint") (init "1" main_node, [])))
  = [Send main_node
          (OpVoiceUpdate "1" (<["sessionId" := "session"%string]>
                                (<["event" := "endpoint"%string]> ∅)))].
Proof.
  refine (proj2 (proj2 (voice_handshake_either_order
                          (init "1" main_node) [] "endpoint" "session" 5
                          eq_refl _))).
  lia.
Defined.

(** X11.  A voice state update without a channel (the id is [None] or
    0) is a disconnection: the voice dictionary is emptied, the channel
    id is stored and nothing is sent, whatever was known before.  A
    server update that follows sends nothing either, for want of a
    session id.  Without a channel id the player is not connected, so
    its position is 0. *)
Theorem voice_disconnect_clears p log session_id chan :
  chan = None \/ chan = Some 0 ->
  let r := _voice_state_update session_id chan (p, log) in
  let p' := fst (snd r) in
  (fst r = Return tt /\ snd (snd r) = log
   /\ _voice_state p' = ∅ /\ channel_id p' = chan)
  /\ (forall data, snd (snd (_voice_server_update data (snd r))) = log)
  /\ (chan = None -> forall now, position now p' = 0).
Proof.
  intros Hchan r p'. subst p' r.
  assert (Hone : forall data,
             bool_decide (dom (<["event" := data]> (∅ : gmap string string))
                          = {["sessionId"; "event"]}) = false)
    by (intros; apply bool_decide_eq_false, dom_event_only).
  unfold _voice_state_update, _voice_server_update, _dispatch_voice_update.
  destruct Hchan as [-> | ->]; run;
    cbn [_voice_state set_voice_state set_channel_id channel_id];
    repeat split; try discriminate.
  intros now. unfold position, is_playing, is_connected. cbn.
  destruct (current p); reflexivity.
Qed.

Lemma voice_disconnect_clears_witness :
  _voice_state
    (fst (snd (_voice_state_update
                 "session" None
                 (set_voice_state (<["event" := "endpoint"%string]> ∅)
                                  tuned_player, []))))
  = ∅.
Proof.
  exact (proj1 (proj2 (proj2 (proj1 (voice_disconnect_clears
           (set_voice_state (<["event" := "endpoint"%string]> ∅) tuned_player)
           [] "session" None (or_introl eq_refl)))))).
Defined.

End VoiceMore.

Module NodeMore.
Import BasicPlayer.

(** X12.  The base handler never sends or dispatches anything and
    changes no field but the current track, which it keeps or clears.
    Track-start, queue-end, node-changed, player-update and
    socket-closed events are ignored by both handlers: the player and the
    trace stay as they are. *)
Theorem handlers_frame (ev : event) :
  (forall p log,
      let r := _handle_event ev (p, log) in
      fst r = Return tt
      /\ snd (snd r) = log
      /\ set_current (current (fst (snd r))) p = fst (snd r)
      /\ (current (fst (snd r)) = None \/ fst (snd r) = p))
  /\ match ev with
     | TrackEndEvent _ _ _ | TrackStuckEvent _ _ _
     | TrackExceptionEvent _ _ _ => True
     | _ =>
         (forall w, _handle_event ev w = (Return tt, w))
         /\ (forall draw w,
               AdvancedPlayer._handle_event ev draw w = (Return tt, w))
     end.
Proof.
  split.
  - intros p log r. subst r. unfold _handle_event. run.
    destruct (is_terminal ev); run; repeat split; auto.
    destruct p; reflexivity.
  - destruct ev; try exact I; split; reflexivity.
Qed.

(** X13.  [change_node] talks to the old node at most once, to destroy
    the player there when that node is available; everything else it
    sends or dispatches is on the new node.  The voice update is replayed
    exactly when the voice dictionary holds both keys.  The player keeps
    all its fields but the node and, with a current track, the update
    anchor. *)
Theorem change_node_sends_on_new_node p log new now now' :
  let r := change_node new now now' (p, log) in
  let p' := fst (snd r) in
  exists out,
    snd (snd r)
    = log ++ (if available (node p)
              then [Send (node p) (OpDestroy (guild_id p))] else [])
          ++ out
    /\ Forall (on_node new) out
    /\ (dom (_voice_state p) = voice_keys ->
        only is_voice_update out
        = [(new, OpVoiceUpdate (guild_id p) (_voice_state p))])
    /\ (dom (_voice_state p) <> voice_keys -> only is_voice_update out = [])
    /\ p' = match current p with
            | Some _ => set_last_update now' (set_node new p)
            | None => set_node new p
            end.
Proof.
  intros r p'. subst p' r. unfold change_node, _dispatch_voice_update. run.
  destruct (available (node p));
    destruct (bool_decide (_voice_state p = ∅)) eqn:Eempty; cbn [negb]; run.
  all: cbn [_voice_state set_node guild_id].
  all: try destruct (bool_decide (dom (_voice_state p) = _)) eqn:Edom; run.
  all: destruct (current p) as [cur|] eqn:Ecur; run.
  all: try destruct (paused p) eqn:Epaused; run.
  all: destruct (volume p =? 100) eqn:Evol; cbn [negb]; run.
  all: destruct (existsb truthyQ (equalizer p)) eqn:Eeq; run.
  all: eexists; split; [rewrite <- ?app_assoc; cbn [app]; reflexivity|].
  all: split; [repeat constructor|].
  all: try apply bool_decide_eq_true in Edom.
  all: try apply bool_decide_eq_false in Edom.
  all: try apply bool_decide_eq_true in Eempty.
  all: split; [intros Hd; try reflexivity; try contradiction|].
  all: try (exfalso; rewrite Eempty in Hd; revert Hd; clear;
            rewrite dom_empty_L; unfold voice_keys; set_solver).
  all: split; [intros Hd; try reflexivity; try contradiction|reflexivity].
Qed.

End NodeMore.

Module EqualizerMore.
Import BasicPlayer.

Lemma clamp_gain_ok g : gain_ok (clamp_gain g).
Proof. apply clamp_gain_spec. Qed.

Lemma list_setitem_ok (e e' : list Q) band g :
  equalizer_ok e -> gain_ok g ->
  list_setitem e band g = Some e' -> equalizer_ok e'.
Proof.
  intros [Hl Hf] Hg. unfold list_setitem.
  destruct (_ && _).
  - intros H. injection H as <-. split.
    + rewrite length_insert. exact Hl.
    + apply Forall_insert; assumption.
  - destruct (_ && _); [|discriminate].
    intros H. injection H as <-. split.
    + rewrite length_insert. exact Hl.
    + apply Forall_insert; assumption.
Qed.

Lemma assign_band_ok band g p log :
  equalizer_ok (equalizer p) -> gain_ok g ->
  equalizer_ok (equalizer (fst (snd (assign_band band g (p, log)))))
  /\ snd (snd (assign_band band g (p, log))) = log.
Proof.
  intros He Hg. unfold assign_band. run.
  destruct (list_setitem (equalizer p) band g) as [e'|] eqn:E; run.
  - split; [|reflexivity]. cbn. eapply list_setitem_ok; eassumption.
  - split; [exact He|reflexivity].
Qed.

Lemma basic_gains_loop_ok gl : forall acc p log,
  equalizer_ok (equalizer p) ->
  equalizer_ok (equalizer (fst (snd (gains_loop gl acc (p, log))))).
Proof.
  induction gl as [|[band gain] gl IH]; intros acc p log He; [exact He|].
  cbn [gains_loop]. run.
  destruct (assign_band_ok band (clamp_gain gain) p log He (clamp_gain_ok _))
    as [H1 _].
  destruct (assign_band band (clamp_gain gain) (p, log)) as [[u|e] [p1 log1]];
    cbn [fst snd] in *; [apply IH; exact H1|exact H1].
Qed.

Lemma advanced_gains_loop_ok gl : forall acc p log,
  equalizer_ok (equalizer (AdvancedPlayer.base p)) ->
  equalizer_ok
    (equalizer (AdvancedPlayer.base
                  (fst (snd (AdvancedPlayer.gains_loop gl acc (p, log)))))).
Proof.
  induction gl as [|[band gain] gl IH]; intros acc p log He; [exact He|].
  cbn [AdvancedPlayer.gains_loop].
  destruct (negb _); [exact He|].
  unfold AdvancedPlayer.lift. run.
  destruct (assign_band_ok band (clamp_gain gain) (AdvancedPlayer.base p) log
              He (clamp_gain_ok _)) as [H1 _].
  destruct (assign_band band (clamp_gain gain) (AdvancedPlayer.base p, log))
    as [[u|e] [p1 log1]]; cbn [fst snd] in *; [apply IH; exact H1|exact H1].
Qed.

(** X14.  The equalizer keeps its shape under [set_gains] for batches of
    finite gains, the gains of this embedding: if the array has its 15
    bands, each within the range from -0.25 to 1, it still has after such
    a batch, in both variants, whether the call returns or raises and
    whatever the bands of the batch are.  A gain that is not a number is
    not covered: no rational stands for it. *)
Theorem set_gains_keeps_equalizer_in_range p log gl :
  equalizer_ok (equalizer (AdvancedPlayer.base p)) ->
  equalizer_ok
    (equalizer (fst (snd (set_gains gl (AdvancedPlayer.base p, log)))))
  /\ equalizer_ok
       (equalizer (AdvancedPlayer.base
                     (fst (snd (AdvancedPlayer.set_gains gl (p, log)))))).
Proof.
  intros He. split.
  - unfold set_gains. run.
    pose proof (basic_gains_loop_ok gl [] _ log He) as H.
    destruct (gains_loop gl [] _) as [[pk|e] [p1 log1]]; exact H.
  - unfold AdvancedPlayer.set_gains. run.
    pose proof (advanced_gains_loop_ok gl [] p log He) as H.
    destruct (AdvancedPlayer.gains_loop gl [] _) as [[pk|e] [p1 log1]];
      exact H.
Qed.

Lemma init_equalizer_ok guild n : equalizer_ok (equalizer (init guild n)).
Proof.
  split; [reflexivity|]. repeat constructor; unfold gain_ok; cbn; lra.
Qed.

Lemma set_gains_keeps_equalizer_in_range_witness :
  equalizer_ok
    (equalizer
       (AdvancedPlayer.base
          (fst (snd (AdvancedPlayer.set_gains
                       [(3, 5 # 1); (-4, 1 # 2); (20, 0 # 1)]
                       (AdvancedPlayer.init "1" main_node, [])))))).
Proof.
  exact (proj2 (set_gains_keeps_equalizer_in_range
                  (AdvancedPlayer.init "1" main_node) []
                  [(3, 5 # 1); (-4, 1 # 2); (20, 0 # 1)]
                  (init_equalizer_ok "1" main_node))).
Defined.

Lemma list_setitem_py_band {A} (l : list A) (band : Z) (x : A) :
  List.length l = 15%nat -> -15 <= band <= 14 ->
  list_setitem l band x = Some (<[Z.to_nat (py_band band) := x]> l).
Proof.
  intros Hl Hb. unfold list_setitem, py_band. rewrite Hl.
  change (- Z.of_nat 15) with (-15). change (Z.of_nat 15) with 15.
  destruct (Z.leb_spec 0 band), (Z.ltb_spec band 15),
    (Z.leb_spec (- 15) band), (Z.ltb_spec band 0);
    cbn [andb]; try lia; try reflexivity.
  do 2 f_equal. lia.
Qed.

Lemma list_setitem_out_of_range {A} (l : list A) (band : Z) (x : A) :
  List.length l = 15%nat -> ~ (-15 <= band <= 14) ->
  list_setitem l band x = None.
Proof.
  intros Hl Hb. unfold list_setitem. rewrite Hl.
  change (- Z.of_nat 15) with (-15). change (Z.of_nat 15) with 15.
  destruct (Z.leb_spec 0 band), (Z.ltb_spec band 15),
    (Z.leb_spec (- 15) band), (Z.ltb_spec band 0);
    cbn [andb]; try reflexivity; lia.
Qed.

(** The batch with each band replaced by the index it stands for. *)
Lemma stored_normalised_cons band gain gl p :
  stored (map (fun bg => (py_band (fst bg), snd bg)) gl)
         (set_equalizer
            (<[Z.to_nat (py_band band) := clamp_gain gain]> (equalizer p)) p)
  = stored (map (fun bg => (py_band (fst bg), snd bg)) ((band, gain) :: gl)) p.
Proof. reflexivity. Qed.

Lemma basic_gains_loop_bands gl : forall acc p log,
  List.length (equalizer p) = 15%nat ->
  Forall (fun bg => -15 <= fst bg <= 14) gl ->
  gains_loop gl acc (p, log)
  = (Return (acc ++ package gl),
     (stored (map (fun bg => (py_band (fst bg), snd bg)) gl) p, log)).
Proof.
  induction gl as [|[band gain] gl IH]; intros acc p log Hl Hv.
  - simpl. rewrite app_nil_r. destruct p; reflexivity.
  - inversion Hv as [|? ? Hband Hrest]; subst. cbn [fst] in Hband.
    cbn [gains_loop]. unfold assign_band. run.
    rewrite (list_setitem_py_band _ _ _ Hl Hband). run.
    rewrite IH; [|cbn; rewrite length_insert; exact Hl|exact Hrest].
    rewrite <- app_assoc. reflexivity.
Qed.

Lemma basic_gains_loop_raises gl band gain post : forall acc p log,
  List.length (equalizer p) = 15%nat ->
  Forall (fun bg => -15 <= fst bg <= 14) gl ->
  ~ (-15 <= band <= 14) ->
  gains_loop (gl ++ (band, gain) :: post) acc (p, log)
  = (Raise IndexError,
     (stored (map (fun bg => (py_band (fst bg), snd bg)) gl) p, log)).
Proof.
  induction gl as [|[b g] gl IH]; intros acc p log Hl Hv Hbad.
  - cbn [app gains_loop]. unfold assign_band. run.
    rewrite (list_setitem_out_of_range _ _ _ Hl Hbad). run.
    destruct p; reflexivity.
  - inversion Hv as [|? ? Hband Hrest]; subst. cbn [fst] in Hband.
    cbn [app gains_loop]. unfold assign_band. run.
    rewrite (list_setitem_py_band _ _ _ Hl Hband). run.
    rewrite IH; [|cbn; rewrite length_insert; exact Hl|exact Hrest|exact Hbad].
    reflexivity.
Qed.

(** X15.  The bands that the base variant takes.  On a player with its
    15 bands, a batch whose bands all lie between -15 and 14 succeeds: a
    band below 0 stands for the band 15 places up (-1 is band 14), each
    entry stores its clamped gain there, and the message carries the
    bands as they were given.  The first band outside -15..14 raises a
    range error from the list assignment: the entries before it have
    been stored and nothing is sent. *)
Theorem basic_set_gains_bands p log gl :
  List.length (equalizer p) = 15%nat ->
  Forall (fun bg => -15 <= fst bg <= 14) gl ->
  let after := stored (map (fun bg => (py_band (fst bg), snd bg)) gl) p in
  set_gains gl (p, log)
  = (Return tt,
     (after, log ++ [Send (node p) (OpEqualizer (guild_id p) (package gl))]))
  /\ (forall band gain post,
        ~ (-15 <= band <= 14) ->
        set_gains (gl ++ (band, gain) :: post) (p, log)
        = (Raise IndexError, (after, log))).
Proof.
  intros Hl Hv after. subst after. split.
  - unfold set_gains. run. rewrite (basic_gains_loop_bands _ _ _ _ Hl Hv).
    run. reflexivity.
  - intros band gain post Hbad. unfold set_gains. run.
    rewrite (basic_gains_loop_raises _ _ _ _ _ _ _ Hl Hv Hbad). reflexivity.
Qed.

Lemma basic_set_gains_bands_witness :
  set_gains [(-1, 1 # 2); (15, 1 # 2)] (init "1" main_node, [])
  = (Raise IndexError,
     (stored [(14, 1 # 2)] (init "1" main_node), [])).
Proof.
  refine (proj2 (basic_set_gains_bands (init "1" main_node) [] [(-1, 1 # 2)]
                                       eq_refl _) 15 (1 # 2) [] _).
  - repeat constructor; simpl; lia.
  - lia.
Defined.

Lemma change_node_no_equalizer p log new now now' :
  Forall (fun g => (g == 0)%Q) (equalizer p) ->
  only is_equalizer (snd (snd (change_node new now now' (p, log))))
  = only is_equalizer log.
Proof.
  intros Hz. apply existsb_truthyQ_false in Hz.
  unfold change_node, _dispatch_voice_update. run. rewrite Hz.
  destruct (available (node p));
    destruct (bool_decide (_voice_state p = ∅)); cbn [negb]; run.
  all: cbn [_voice_state set_node guild_id].
  all: try destruct (bool_decide (dom (_voice_state p) = _)); run.
  all: destruct (current p) as [cur|]; run.
  all: try destruct (paused p); run.
  all: destruct (volume p =? 100); cbn [negb]; run.
  all: unfold only, commands;
    repeat (rewrite ?omap_app, ?List.filter_app;
            cbn [omap list_omap List.filter is_equalizer snd app]);
    rewrite ?app_nil_r; reflexivity.
Qed.

(** X16.  [reset_equalizer] on a player with its 15 bands returns, sets
    every band to 0 and sends one equalizer command that lists the bands
    0 to 14 with gain 0.  A [change_node] after it resends no equalizer
    command. *)
Theorem reset_equalizer_zeroes p log :
  List.length (equalizer (AdvancedPlayer.base p)) = 15%nat ->
  let r := AdvancedPlayer.reset_equalizer (p, log) in
  let b := AdvancedPlayer.base p in
  (fst r = Return tt
   /\ equalizer (AdvancedPlayer.base (fst (snd r))) = replicate 15 0%Q
   /\ snd (snd r)
      = log ++ [Send (node b)
                     (OpEqualizer (guild_id b)
                                  (map (fun i => (Z.of_nat i, 0%Q)) (seq 0 15)))])
  /\ (forall new now now',
        only is_equalizer
             (snd (snd (AdvancedPlayer.change_node new now now' (snd r))))
        = only is_equalizer (snd (snd r))).
Proof.
  intros Hl r b. subst r b.
  assert (Hv : Forall (fun bg : Z * Q => valid_band (fst bg))
                      (map (fun x => (Z.of_nat x, 0%Q)) (seq 0 15)))
    by (repeat constructor; cbn; lia).
  assert (Hrun := GainsFacts.advanced_gains_loop_valid _ [] p log Hl Hv).
  unfold AdvancedPlayer.reset_equalizer, AdvancedPlayer.set_gains. run.
  rewrite Hrun. unfold AdvancedPlayer.send, AdvancedPlayer.lift. run.
  assert (Hz : equalizer (stored (map (fun x => (Z.of_nat x, 0%Q)) (seq 0 15))
                                 (AdvancedPlayer.base p))
               = replicate 15 0%Q).
  { unfold stored. cbn [equalizer set_equalizer].
    destruct (equalizer (AdvancedPlayer.base p)) as [|g0 e]; [discriminate|].
    do 14 (destruct e as [|? e]; [discriminate|]).
    destruct e; [reflexivity|discriminate]. }
  split; [split; [reflexivity|split; [exact Hz|reflexivity]]|].
  intros new now now'. unfold AdvancedPlayer.change_node, AdvancedPlayer.lift.
  cbn [fst snd AdvancedPlayer.base AdvancedPlayer.set_base].
  match goal with
  | |- context [change_node new now now' (?q, ?lg)] =>
      pose proof (change_node_no_equalizer q lg new now now') as Hc;
      destruct (change_node new now now' (q, lg)) as [res [q' lg']]
  end.
  cbn [fst snd] in *. apply Hc. rewrite Hz. repeat constructor.
Qed.

Lemma reset_equalizer_zeroes_witness :
  equalizer
    (AdvancedPlayer.base
       (fst (snd (AdvancedPlayer.reset_equalizer
                    (AdvancedPlayer.set_base tuned_player
                       (AdvancedPlayer.init "1" main_node), [])))))
  = replicate 15 0%Q.
Proof.
  exact (proj1 (proj2 (proj1 (reset_equalizer_zeroes
                                (AdvancedPlayer.set_base tuned_player
                                   (AdvancedPlayer.init "1" main_node))
                                [] eq_refl)))).
Defined.

End EqualizerMore.

Module QueueMore.
Import AdvancedPlayer.

(** X17.  The user data of a player is a map: [fetch] after [store]
    gives the stored value, other keys are not affected, [fetch] after
    [delete] gives the default, and [delete] of a key that is not there
    changes nothing.  After [cleanup] every [fetch] gives its default and
    the queue is empty.  None of the four touches the inherited fields or
    sends anything, and [store] and [delete] keep the queue. *)
Theorem user_data_round_trip p log key value other default :
  let w := snd (store key value (p, log)) in
  (fetch key default (fst w) = Some value
   /\ (other <> key -> fetch other default (fst w) = fetch other default p)
   /\ fetch key default (fst (snd (delete key w))) = default)
  /\ (_user_data p !! key = None -> delete key (p, log) = (Return tt, (p, log)))
  /\ (fetch other default (fst (snd (cleanup w))) = default
      /\ queue (fst (snd (cleanup w))) = [])
  /\ (base (fst w) = base p /\ queue (fst w) = queue p /\ snd w = log
      /\ base (fst (snd (delete key w))) = base p
      /\ queue (fst (snd (delete key w))) = queue p
      /\ snd (snd (delete key w)) = log
      /\ base (fst (snd (cleanup w))) = base p
      /\ snd (snd (cleanup w)) = log).
Proof.
  intros w. subst w. unfold store, delete, cleanup, fetch. run.
  cbn [_user_data set_user_data set_queue base queue].
  split; [split; [|split]|split; [|split]].
  - rewrite lookup_insert_eq. reflexivity.
  - intros Hne. rewrite lookup_insert_ne by congruence. reflexivity.
  - rewrite lookup_delete_eq. reflexivity.
  - intros Hnone. rewrite delete_id by exact Hnone. destruct p; reflexivity.
  - split; reflexivity.
  - repeat split.
Qed.

Lemma deque_insert_spec {A} (i : Z) (x : A) (q : list A) :
  exists j : nat,
    (j <= List.length q)%nat
    /\ deque_insert i x q = take j q ++ x :: drop j q
    /\ (0 <= i <= Z.of_nat (List.length q) -> j = Z.to_nat i)
    /\ (Z.of_nat (List.length q) < i -> j = List.length q)
    /\ (i < 0 -> j = Z.to_nat (Z.max 0 (i + Z.of_nat (List.length q)))).
Proof.
  unfold deque_insert.
  destruct (Z.ltb_spec i 0).
  - exists (Z.to_nat (Z.max 0 (i + Z.of_nat (List.length q)))).
    repeat split; try lia.
  - exists (Z.to_nat (Z.min i (Z.of_nat (List.length q)))).
    repeat split; try lia.
Qed.

(** X18.  [add] puts exactly one track in the queue and keeps the
    others in their order: without an index the track goes to the end;
    with an index it sits at the position the index stands for - the
    index itself from 0 to the length, the end beyond the length, counted
    from the end when negative and the front when too negative - and
    removing it there gives back the old queue.  Nothing is sent and the
    inherited fields are kept. *)
Theorem add_inserts_one_track p log tr index :
  let r := add tr index (p, log) in
  let q := queue p in
  let q' := queue (fst (snd r)) in
  (fst r = Return tt /\ snd (snd r) = log /\ base (fst (snd r)) = base p)
  /\ List.length q' = S (List.length q)
  /\ (index = None -> q' = q ++ [tr])
  /\ (forall i, index = Some i ->
        exists j : nat,
          q' !! j = Some tr
          /\ base.delete j q' = q
          /\ (0 <= i <= Z.of_nat (List.length q) -> j = Z.to_nat i)
          /\ (Z.of_nat (List.length q) < i -> j = List.length q)
          /\ (i < 0 -> j = Z.to_nat (Z.max 0 (i + Z.of_nat (List.length q))))).
Proof.
  intros r q q'. subst q' q r. unfold add. run.
  destruct index as [i|]; cbn [queue set_queue];
    (split; [repeat split|]).
  - destruct (deque_insert_spec i tr (queue p))
      as (j & Hj & Heq & H1 & H2 & H3).
    rewrite Heq. split; [|split; [discriminate|]].
    + rewrite length_app. cbn [List.length].
      rewrite length_take, length_drop. lia.
    + intros i' Hi. injection Hi as <-. exists j.
      split; [|split; [|auto]].
      * rewrite lookup_app_r by (rewrite length_take; lia).
        rewrite length_take.
        replace (j - j `min` List.length (queue p))%nat with 0%nat by lia.
        reflexivity.
      * assert (Hlen : List.length (take j (queue p)) = j)
          by (rewrite length_take; lia).
        rewrite delete_take_drop.
        rewrite take_app_length' by (symmetry; exact Hlen).
        rewrite drop_app_ge by lia. rewrite Hlen.
        replace (S j - j)%nat with 1%nat by lia. cbn [skipn].
        rewrite drop_0. apply take_drop.
  - split; [rewrite length_app; cbn; lia|].
    split; [reflexivity|discriminate].
Qed.

End QueueMore.

Module PlayMore.
Import AdvancedPlayer.

(** The tracks that [play] puts back in the queue before anything else. *)
Lemma time_option_cases x tr w :
  (x < 0 /\ duration tr < x /\ time_option x tr w = (Raise ValueError, w))
  \/ (~ (x < 0 /\ duration tr < x)
      /\ time_option x tr w = (Return (if x =? 0 then None else Some x), w)).
Proof.
  unfold time_option.
  destruct (Z.eqb_spec x 0) as [->|Hx]; cbn [negb].
  - right. split; [lia|reflexivity].
  - destruct (Z.ltb_spec x 0), (Z.ltb_spec (duration tr) x); cbn [andb].
    + left. auto.
    + right. split; [lia|reflexivity].
    + right. split; [lia|reflexivity].
    + right. split; [lia|reflexivity].
Qed.

(** X19.  [play] with a track given.  The call raises exactly when the
    start time, or else the end time, is below 0 and above the duration
    of the track, and then with a value error; otherwise it returns.  In
    both cases the queue is the old one followed by the current track if
    [repeat] is set - the given track takes nothing from the queue - and
    the pause flag is reset.  When it raises, nothing is sent and the
    current track is kept. *)
Theorem play_given_track p log tr start_time end_time no_replace draw :
  let r := play (Some tr) start_time end_time no_replace draw (p, log) in
  let p' := fst (snd r) in
  let bad x := x < 0 /\ duration tr < x in
  (fst r = Raise ValueError <-> bad start_time \/ bad end_time)
  /\ (fst r = Return tt <-> ~ (bad start_time \/ bad end_time))
  /\ queue p' = queue p ++ option_list (current_to_repeat p)
  /\ BasicPlayer.paused (base p') = false
  /\ (fst r = Raise ValueError ->
      snd (snd r) = log
      /\ BasicPlayer.current (base p') = BasicPlayer.current (base p)).
Proof.
  intros r p' bad. subst p' r bad. unfold play. run.
  destruct (current_to_repeat p) as [cur|]; run_adv; cbn [option_list].
  all: rewrite ?app_nil_r.
  all: match goal with
       | |- context [time_option ?x ?t ?w] =>
           destruct (time_option_cases x t w)
             as [(Ha & Hb & ->)|(Ha & ->)]
       end; run_adv.
  all: try (repeat split; try tauto; try discriminate; intros; auto; fail).
  all: match goal with
       | |- context [time_option ?x ?t ?w] =>
           destruct (time_option_cases x t w)
             as [(Hc & Hd & ->)|(Hc & ->)]
       end; run_adv.
  all: repeat split; try tauto; try discriminate; intros; auto.
Qed.

Lemma play_none_nonempty p log start_time end_time no_replace draw :
  queue p <> [] \/ current_to_repeat p <> None ->
  let r := play None start_time end_time no_replace draw (p, log) in
  let p' := fst (snd r) in
  fst r = Raise TypeError
  /\ snd (snd r) = log
  /\ queue p' = queue p ++ option_list (current_to_repeat p)
  /\ BasicPlayer.current (base p') = BasicPlayer.current (base p)
  /\ BasicPlayer.paused (base p') = false.
Proof.
  intros Hq r p'. subst p' r. unfold play. run.
  destruct (current_to_repeat p) as [cur|]; run_adv; cbn [queue set_base set_queue option_list].
  - destruct (queue p ++ [cur]) eqn:E; [destruct (queue p); discriminate|].
    unfold deque_pop. run. rewrite <- E. repeat split.
  - destruct (queue p) eqn:E; [destruct Hq; contradiction|].
    unfold deque_pop. run. rewrite app_nil_r. repeat split. exact E.
Qed.

(** X20.  [play] without a track, on a queue that is not empty once the
    repeated track is back in it, raises a type error: the queue is a
    [collections.deque] and its [pop] is called with an index.  Nothing
    is sent, no track is taken from the queue and the current track is
    kept; only the anchors and the pause flag have been reset. *)
Theorem play_from_queue_raises_type_error
        p log start_time end_time no_replace draw :
  queue p <> [] \/ current_to_repeat p <> None ->
  let r := play None start_time end_time no_replace draw (p, log) in
  let p' := fst (snd r) in
  fst r = Raise TypeError
  /\ snd (snd r) = log
  /\ queue p' = queue p ++ option_list (current_to_repeat p)
  /\ BasicPlayer.current (base p') = BasicPlayer.current (base p)
  /\ BasicPlayer.paused (base p') = false.
Proof.
  intros Hq r p'. subst p' r. unfold play. run.
  destruct (current_to_repeat p) as [cur|]; run_adv;
    cbn [queue set_base set_queue option_list].
  - destruct (queue p ++ [cur]) eqn:E; [destruct (queue p); discriminate|].
    unfold deque_pop. run. rewrite <- E. repeat split.
  - destruct (queue p) eqn:E; [destruct Hq; contradiction|].
    unfold deque_pop. run. rewrite app_nil_r. repeat split. exact E.
Qed.

Lemma play_from_queue_raises_type_error_witness :
  fst (play None 0 0 false 0 (queued_player, [])) = Raise TypeError.
Proof.
  refine (proj1 (play_from_queue_raises_type_error
                   queued_player [] 0 0 false 0 _)).
  left. discriminate.
Defined.

(** X21.  What the queueing handler does on a terminal event (track
    stuck, track exception, or track end with reason ["FINISHED"]).  With
    an empty queue and nothing to repeat it stops the player: a stop
    command, then a queue-end event, and no current track.  Otherwise it
    raises the type error of [play] and the player keeps its current
    track: no next track is started. *)
Theorem handler_on_terminal_event ev p log draw :
  BasicPlayer.is_terminal ev = true ->
  let r := _handle_event ev draw (p, log) in
  let b := base p in
  (queue p = [] -> current_to_repeat p = None ->
   fst r = Return tt
   /\ snd (snd r)
      = log ++ [Send (BasicPlayer.node b) (OpStop (BasicPlayer.guild_id b));
                Dispatch (BasicPlayer.node b)
                         (QueueEndEvent (BasicPlayer.guild_id b))]
   /\ BasicPlayer.current (base (fst (snd r))) = None)
  /\ (queue p <> [] \/ current_to_repeat p <> None ->
      fst r = Raise TypeError
      /\ snd (snd r) = log
      /\ BasicPlayer.current (base (fst (snd r)))
         = BasicPlayer.current (base p)).
Proof.
  intros Hev r b. subst r b. unfold _handle_event. rewrite Hev.
  cbn [when]. split.
  - intros Hq Hno. unfold play. run. rewrite Hno. run_adv.
    cbn [queue set_base]. rewrite Hq. run_adv.
    rewrite <- app_assoc. repeat split.
  - intros Hq.
    destruct (play_none_nonempty p log 0 0 false draw Hq)
      as (H1 & H2 & _ & H4 & _).
    auto.
Qed.

Lemma handler_on_terminal_event_witness :
  snd (snd (_handle_event (TrackStuckEvent "1" None 10000) 0
                          (init "1" main_node, [])))
  = [Send main_node (OpStop "1"); Dispatch main_node (QueueEndEvent "1")].
Proof.
  exact (proj1 (proj2 (proj1 (handler_on_terminal_event
                                (TrackStuckEvent "1" None 10000)
                                (init "1" main_node) [] 0 eq_refl)
                             eq_refl eq_refl))).
Defined.

End PlayMore.

Module TrackMore.
Import Track.

Lemma init_cases (d : data) (requester_ : Z) :
  match missing_keys d with
  | [] => exists t, __init__ d requester_ = Built t
                    /\ to_data t = d /\ requester t = requester_
  | k :: _ => __init__ d requester_ = InvalidTrack k
  end.
Proof.
  destruct d as [[tk|] [[[ident|] [seekable|] [auth|] [len|] [strm|] [ttl|] [u|]]|]];
    cbn; try reflexivity.
  eexists. repeat split.
Qed.

(** X22.  [AudioTrack.__init__] either builds the track or fails with
    [InvalidTrack] on the first key that is missing, in the order
    ['track'], ['info'], ['identifier'], ['isSeekable'], ['author'],
    ['length'], ['isStream'], ['title'], ['uri'].  When no key is missing
    the track holds exactly the values of the dictionary and the
    requester it was given.  Round trip: the dictionary made of the
    fields of a track has no key missing and builds that track again,
    with the requester of the call. *)
Theorem init_reports_first_missing_key (d : data) (requester_ : Z) :
  match missing_keys d with
  | [] => exists t, __init__ d requester_ = Built t
                    /\ to_data t = d /\ requester t = requester_
  | k :: _ => __init__ d requester_ = InvalidTrack k
  end
  /\ (forall t,
        missing_keys (to_data t) = []
        /\ __init__ (to_data t) requester_
           = Built (with_requester requester_ t)).
Proof.
  split.
  - destruct d as [[tk|] [[[ident|] [seekable|] [auth|] [len|] [strm|]
                           [ttl|] [u|]]|]];
      cbn; try reflexivity.
    eexists. repeat split.
  - intros t. split; reflexivity.
Qed.

End TrackMore.

Module TrackArgMore.

(** X23.  The [track] argument of [add] and [play].  A track that is
    already an [AudioTrack] is queued as it is: the requester given to
    [add] is not used.  A dictionary is built into a track with the
    requester of the call for [add], and with requester 0 for [play].  A
    dictionary with a key missing makes both fail with [InvalidTrack] on
    that key before the player is touched: the queue, the fields and the
    trace are as before. *)
Theorem track_argument_conversion p log requester_ index :
  (forall t,
      add_arg requester_ (Track.FromTrack t) index (p, log)
      = (inr tt, snd (AdvancedPlayer.add t index (p, log))))
  /\ (forall t,
        add_arg requester_ (Track.FromDict (to_data t)) index (p, log)
        = (inr tt,
           snd (AdvancedPlayer.add (with_requester requester_ t) index
                                   (p, log))))
  /\ (forall t start_time end_time no_replace draw,
        snd (play_arg (Some (Track.FromDict (to_data t)))
                      start_time end_time no_replace draw (p, log))
        = snd (AdvancedPlayer.play (Some (with_requester 0 t))
                                   start_time end_time no_replace draw
                                   (p, log)))
  /\ (forall d k ks,
        Track.missing_keys d = k :: ks ->
        add_arg requester_ (Track.FromDict d) index (p, log)
        = (inl (InvalidTrackError k), (p, log))
        /\ forall start_time end_time no_replace draw,
            play_arg (Some (Track.FromDict d))
                     start_time end_time no_replace draw (p, log)
            = (inl (InvalidTrackError k), (p, log))).
Proof.
  split; [|split; [|split]].
  - intros t. reflexivity.
  - intros t. reflexivity.
  - intros t st et nr draw. unfold play_arg.
    change (Track.__init__ (to_data t) 0)
      with (Track.Built (with_requester 0 t)).
    cbv iota beta.
    destruct (AdvancedPlayer.play (Some (with_requester 0 t)) st et nr draw
                                  (p, log)) as [[u|e] w]; reflexivity.
  - intros d k ks Hk.
    pose proof (TrackMore.init_cases d requester_) as H1.
    pose proof (TrackMore.init_cases d 0) as H2.
    rewrite Hk in H1, H2.
    unfold add_arg, play_arg, Track.convert. rewrite H1, H2.
    split; reflexivity.
Qed.

End TrackArgMore.

Module HubMore.
Import Hub.

Section Generic.
Context {P : Type} `{Player P}.

Lemma on_player_keeps guild (p : P) m (h : @hub P) :
  players h !! guild = Some p ->
  let h' := snd (on_player guild p m h) in
  dom (players h') = dom (players h)
  /\ (forall g, g <> guild -> players h' !! g = players h !! g)
  /\ (exists more, out h' = out h ++ more)
  /\ stats h' = stats h
  /\ (forall k, fst (on_player guild p m h) <> inl (KeyError k)).
Proof.
  intros Hp h'. subst h'. unfold on_player.
  destruct (m (p, [])) as [res [p' effects]]. cbn [fst snd players out stats].
  repeat split.
  - rewrite dom_insert_L. apply elem_of_dom_2 in Hp.
    apply subseteq_union_1_L, singleton_subseteq_l, Hp.
  - intros g Hg. apply lookup_insert_ne. congruence.
  - eexists. reflexivity.
  - intros k. destruct res; discriminate.
Qed.

Lemma kept_refl data (h : @hub P) : kept data h h.
Proof. repeat split. exists []. rewrite app_nil_r. reflexivity. Qed.

Lemma kept_warn data w (h : @hub P) : kept data h (warn w h).
Proof. repeat split. eexists. reflexivity. Qed.

Lemma handle_event_kept data draw (h : @hub P) :
  kept data h (snd (_handle_event data draw h))
  /\ stats (snd (_handle_event data draw h)) = stats h
  /\ (forall k, fst (_handle_event data draw h) = inl (KeyError k) ->
        snd (_handle_event data draw h) = h).
Proof.
  unfold _handle_event, item.
  destruct (guildId data) as [guild|] eqn:Eg; [|split; [apply kept_refl|auto]].
  destruct (players h !! guild) as [p|] eqn:Ep;
    [|split; [apply kept_warn|split; [reflexivity|discriminate]]].
  destruct (type_ data) as [ty|]; [|split; [apply kept_refl|auto]].
  assert (Hgo : forall ev,
             let r := on_player guild p (player_handle_event ev draw)
                                (lavalink_dispatch ev h) in
             kept data h (snd r) /\ stats (snd r) = stats h
             /\ (forall k, fst r = inl (KeyError k) -> snd r = h)).
  { intros ev r. subst r.
    destruct (on_player_keeps guild p (player_handle_event ev draw)
                (lavalink_dispatch ev h) Ep) as (H1 & H2 & (more & H3) & H4 & H5).
    split; [|split].
    - split; [exact H1|split].
      + intros g Hg. apply H2. congruence.
      + exists (Dispatched ev :: more). rewrite H3. cbn.
        rewrite <- app_assoc. reflexivity.
    - exact H4.
    - intros k Hk. exfalso. apply (H5 k Hk). }
  unfold translate, item.
  repeat match goal with
         | |- context [String.eqb ?a ?b] => destruct (String.eqb a b)
         | |- context [match ?x with Some _ => _ | None => _ end] =>
             match type of x with
             | option _ => destruct x
             end
         end;
    try apply Hgo;
    try (split; [apply kept_refl|auto]; fail);
    try (split; [apply kept_warn|split; [reflexivity|discriminate]]).
Qed.

(** X24.  Handling a message never adds or removes a player, changes at
    most the player of the guild the message names, and only adds to the
    trace.  The statistics change only on a ['stats'] message, which
    stores that message.  If the handling fails for a missing key, the
    hub is as it was before. *)
Theorem handle_message_keeps_the_table data now draw (h : @hub P) :
  let r := _handle_message data now draw h in
  kept data h (snd r)
  /\ (stats (snd r) = stats h
      \/ (op data = Some "stats"%string /\ stats (snd r) = Some data))
  /\ (forall k, fst r = inl (KeyError k) -> snd r = h).
Proof.
  intros r. subst r. unfold _handle_message, item.
  destruct (op data) as [o|]; [|split; [apply kept_refl|auto]].
  destruct (String.eqb_spec o "stats") as [->|_].
  { split; [repeat split; exists []; cbn; rewrite app_nil_r; reflexivity|].
    split; [right; auto|discriminate]. }
  destruct (String.eqb o "playerUpdate").
  { destruct (guildId data) as [guild|] eqn:Eg; [|split; [apply kept_refl|auto]].
    destruct (players h !! guild) as [p|] eqn:Ep;
      [|split; [apply kept_refl|split; [auto|discriminate]]].
    destruct (state data) as [st|]; [|split; [apply kept_refl|auto]].
    destruct (on_player_keeps guild p
                (player_update_state now (position st) (time st)) h Ep)
      as (H1 & H2 & H3 & H4 & H5).
    split; [|split].
    - split; [exact H1|split; [|exact H3]].
      intros g Hg. apply H2. congruence.
    - left. exact H4.
    - intros k Hk. exfalso. apply (H5 k Hk). }
  destruct (String.eqb o "event").
  { destruct (handle_event_kept data draw h) as (H1 & H2 & H3). auto. }
  split; [apply kept_warn|split; [left; reflexivity|discriminate]].
Qed.

(** X25.  Messages that are not for a player.  An event for a guild
    without a registered player and an event of an unknown type each
    leave a warning and nothing else: no event is dispatched and no
    player is touched.  A player update for a guild without a registered
    player leaves no mark at all.  A message with an unknown ['op'] leaves
    a warning. *)
Theorem stale_and_unknown_messages data now draw (h : @hub P) guild :
  guildId data = Some guild ->
  (op data = Some "event"%string -> players h !! guild = None ->
   _handle_message data now draw h
   = (inr tt, warn (NoPlayerForEvent guild) h))
  /\ (forall p ty,
        op data = Some "event"%string -> players h !! guild = Some p ->
        type_ data = Some ty ->
        ty <> "TrackEndEvent"%string -> ty <> "TrackStuckEvent"%string ->
        ty <> "TrackExceptionEvent"%string ->
        ty <> "WebSocketClosedEvent"%string ->
        _handle_message data now draw h
        = (inr tt, warn (UnknownEvent ty) h))
  /\ (op data = Some "playerUpdate"%string -> players h !! guild = None ->
      _handle_message data now draw h = (inr tt, h))
  /\ (forall o,
        op data = Some o ->
        o <> "stats"%string -> o <> "playerUpdate"%string ->
        o <> "event"%string ->
        _handle_message data now draw h = (inr tt, warn (UnknownOp o) h)).
Proof.
  intros Hg. unfold _handle_message, _handle_event, translate, item.
  rewrite Hg. split; [|split; [|split]].
  - intros -> ->. reflexivity.
  - intros p ty -> -> -> H1 H2 H3 H4. cbn.
    apply String.eqb_neq in H1, H2, H3, H4. rewrite H1, H2, H3, H4.
    reflexivity.
  - intros -> ->. reflexivity.
  - intros o -> H1 H2 H3.
    apply String.eqb_neq in H1, H2, H3. rewrite H1, H2, H3. reflexivity.
Qed.

Lemma handle_all_app msgs1 msgs2 (h : @hub P) :
  handle_all (msgs1 ++ msgs2) h
  = match handle_all msgs1 h with
    | (inr _, h') => handle_all msgs2 h'
    | (inl f, h') => (inl f, h')
    end.
Proof.
  revert h. induction msgs1 as [|[[data now] draw] msgs1 IH]; intros h;
    cbn [app handle_all]; [reflexivity|].
  destruct (_handle_message data now draw h) as [[f|u] h']; [reflexivity|].
  apply IH.
Qed.

Lemma listen_spec frames : forall script (h : @hub P) w,
  _listen frames script h w
  = match handle_all (texts_before_close frames) h with
    | (inr _, h') =>
        let '(e, w') :=
          WebSocket._websocket_closed (fst (close_of frames))
                                      (snd (close_of frames)) script w in
        (Reconnected e, (h', w'))
    | (inl f, h') => (Failed f, (h', w))
    end.
Proof.
  induction frames as [|[data now draw|c e|] frames IH]; intros script h w;
    cbn [_listen texts_before_close close_of handle_all fst snd];
    try reflexivity.
  - destruct (_handle_message data now draw h) as [[f|u] h']; [reflexivity|].
    apply IH.
  - apply IH.
Qed.

(** X26.  The read loop.  The text frames are handled in order up to the
    first closing frame; the frames after it are not looked at, and other
    kinds of frame are skipped.  When every message was handled, the loop
    ends with [_websocket_closed] - with the code and reason of the
    closing frame, or with none at the end of the stream - and so with a
    reconnect.  When the handling of a message raises, the loop ends
    there: the later frames are not handled and the channel is left as it
    is, without a disconnect notice or a reconnect. *)
Theorem listen_handles_until_close frames script (h : @hub P) w :
  let handled := handle_all (texts_before_close frames) h in
  (forall u h',
      handled = (inr u, h') ->
      _listen frames script h w
      = (Reconnected
           (fst (WebSocket._websocket_closed
                   (fst (close_of frames)) (snd (close_of frames)) script w)),
         (h', snd (WebSocket._websocket_closed
                     (fst (close_of frames)) (snd (close_of frames))
                     script w))))
  /\ (forall f h',
        handled = (inl f, h') ->
        _listen frames script h w = (Failed f, (h', w)))
  /\ (forall c e rest,
        _listen (frames ++ Closer c e :: rest) script h w
        = _listen (frames ++ [Closer c e]) script h w)
  /\ _listen (frames ++ [Closer None None]) script h w
     = _listen frames script h w.
Proof.
  intros handled. subst handled. split; [|split; [|split]].
  - intros u h' Hh. rewrite listen_spec, Hh.
    destruct (WebSocket._websocket_closed _ _ _ _). reflexivity.
  - intros f h' Hh. rewrite listen_spec, Hh. reflexivity.
  - intros c e rest. rewrite !listen_spec.
    assert (Ht : forall tail,
               texts_before_close (frames ++ Closer c e :: tail)
               = texts_before_close frames
               /\ close_of (frames ++ Closer c e :: tail)
                  = close_of (frames ++ [Closer c e])).
    { intros tail. induction frames as [|[d n dr|c' e'|] frames IH];
        cbn [app texts_before_close close_of]; auto.
      destruct IH as [IH1 IH2]. rewrite IH1. auto. }
    destruct (Ht rest) as [-> ->]. destruct (Ht []) as [-> _]. reflexivity.
  - rewrite !listen_spec.
    assert (Ht : texts_before_close (frames ++ [Closer None None])
                 = texts_before_close frames
                 /\ close_of (frames ++ [Closer None None]) = close_of frames).
    { induction frames as [|[d n dr|c' e'|] frames IH];
        cbn [app texts_before_close close_of]; auto.
      destruct IH as [IH1 IH2]. rewrite IH1. auto. }
    destruct Ht as [-> ->]. reflexivity.
Qed.

End Generic.

Lemma stale_and_unknown_messages_witness :
  _handle_message
    (MkMessage (Some "ping"%string) (Some 1) None None None None None None None)
    5000 0 (MkHub (∅ : gmap Z BasicPlayer.t) None [])
  = (inr tt, warn (UnknownOp "ping") (MkHub (∅ : gmap Z BasicPlayer.t) None [])).
Proof.
  refine (proj2 (proj2 (proj2 (stale_and_unknown_messages
            (MkMessage (Some "ping"%string) (Some 1) None None None None None
                       None None)
            5000 0 (MkHub (∅ : gmap Z BasicPlayer.t) None []) 1 eq_refl)))
            "ping"%string eq_refl _ _ _); discriminate.
Defined.

End HubMore.

Module HubPlayers.
Import Hub.

(** X27.  Events of the node, for a registered base player.  Each of
    the four known types is dispatched as its typed event, which carries
    the guild of the player and, for the three track events, the track
    that was current when the message arrived.  The player then handles
    it: track stuck, track exception and track end with reason
    ["FINISHED"] clear the current track, another reason and a closed
    socket leave the player as it is.  A message that lacks the field of
    its type raises a key error before anything is dispatched. *)
Theorem events_reach_the_player
        data now draw (h : @hub BasicPlayer.t) guild p :
  op data = Some "event"%string ->
  guildId data = Some guild ->
  players h !! guild = Some p ->
  let g := BasicPlayer.guild_id p in
  let cur := BasicPlayer.current p in
  let result ev (p' : BasicPlayer.t) :=
    (inr tt : failure + unit,
     MkHub (<[guild := p']> (players h)) (stats h) (out h ++ [Dispatched ev])) in
  (type_ data = Some "TrackEndEvent"%string ->
   match reason data with
   | Some r =>
       _handle_message data now draw h
       = result (TrackEndEvent g cur r)
                (if bool_decide (r = "FINISHED"%string)
                 then BasicPlayer.set_current None p else p)
   | None => _handle_message data now draw h = (inl (KeyError "reason"), h)
   end)
  /\ (type_ data = Some "TrackStuckEvent"%string ->
      match thresholdMs data with
      | Some t =>
          _handle_message data now draw h
          = result (TrackStuckEvent g cur t) (BasicPlayer.set_current None p)
      | None =>
          _handle_message data now draw h = (inl (KeyError "thresholdMs"), h)
      end)
  /\ (type_ data = Some "TrackExceptionEvent"%string ->
      match error data with
      | Some e =>
          _handle_message data now draw h
          = result (TrackExceptionEvent g cur e)
                   (BasicPlayer.set_current None p)
      | None => _handle_message data now draw h = (inl (KeyError "error"), h)
      end)
  /\ (type_ data = Some "WebSocketClosedEvent"%string ->
      forall c r b,
        code data = Some c -> reason data = Some r -> byRemote data = Some b ->
        _handle_message data now draw h
        = result (WebSocketClosedEvent g c r b) p).
Proof.
  intros Hop Hg Hp g cur result. subst g cur result.
  unfold _handle_message, _handle_event, item. rewrite Hop, Hg. cbn.
  rewrite Hp. split; [|split; [|split]].
  - intros ->. cbn. destruct (reason data) as [r|]; [|reflexivity].
    unfold on_player. cbn. unfold BasicPlayer._handle_event. cbn.
    destruct (bool_decide (r = "FINISHED"%string)); cbn;
      rewrite app_nil_r; reflexivity.
  - intros ->. cbn. destruct (thresholdMs data) as [t|]; [|reflexivity].
    unfold on_player. cbn. rewrite app_nil_r. reflexivity.
  - intros ->. cbn. destruct (error data) as [e|]; [|reflexivity].
    unfold on_player. cbn. rewrite app_nil_r. reflexivity.
  - intros -> c r b Hc Hr Hb. cbn. rewrite Hc, Hr, Hb.
    unfold on_player. cbn. rewrite app_nil_r. reflexivity.
Qed.

Lemma events_reach_the_player_witness :
  _handle_message
    (MkMessage (Some "event"%string) (Some 1) None
               (Some "TrackStuckEvent"%string) None (Some 10000) None None
               None)
    5000 0 (MkHub {[ 1 := tuned_player ]} None [])
  = (inr tt,
     MkHub (<[1 := BasicPlayer.set_current None tuned_player]>
              {[ 1 := tuned_player ]})
           None
           [Dispatched (TrackStuckEvent "1" (Some song) 10000)]).
Proof.
  exact (proj1 (proj2 (events_reach_the_player
           (MkMessage (Some "event"%string) (Some 1) None
                      (Some "TrackStuckEvent"%string) None (Some 10000) None
                      None None)
           5000 0 (MkHub {[ 1 := tuned_player ]} None []) 1 tuned_player
           eq_refl eq_refl eq_refl)) eq_refl).
Defined.

(** X28.  A player update of the node, for a registered player of
    either class: the anchors of that player become the clock reading and
    the reported position and time (0 for a key that is absent), the
    player announces it with one player-update event on its node, and the
    queue and the other fields are kept.  Without the ['state'] key the
    handling raises a key error and changes nothing. *)
Theorem player_update_reaches_the_player data now draw guild :
  op data = Some "playerUpdate"%string ->
  guildId data = Some guild ->
  (forall (h : @hub BasicPlayer.t) p,
      players h !! guild = Some p ->
      match state data with
      | Some st =>
          _handle_message data now draw h
          = (inr tt,
             MkHub (<[guild :=
                        BasicPlayer.set_position_timestamp
                          (default 0 (time st))
                          (BasicPlayer.set_last_position
                             (default 0 (position st))
                             (BasicPlayer.set_last_update now p))]>
                      (players h))
                   (stats h)
                   (out h ++ [ByPlayer
                                (Dispatch (BasicPlayer.node p)
                                   (PlayerUpdateEvent
                                      (BasicPlayer.guild_id p)
                                      (default 0 (position st))
                                      (default 0 (time st))))]))
      | None => _handle_message data now draw h = (inl (KeyError "state"), h)
      end)
  /\ (forall (h : @hub AdvancedPlayer.t) p,
        players h !! guild = Some p ->
        match state data with
        | Some st =>
            _handle_message data now draw h
            = (inr tt,
               MkHub (<[guild :=
                          AdvancedPlayer.set_base
                            (BasicPlayer.set_position_timestamp
                               (default 0 (time st))
                               (BasicPlayer.set_last_position
                                  (default 0 (position st))
                                  (BasicPlayer.set_last_update
                                     now (AdvancedPlayer.base p))))
                            p]>
                        (players h))
                     (stats h)
                     (out h ++ [ByPlayer
                                  (Dispatch
                                     (BasicPlayer.node (AdvancedPlayer.base p))
                                     (PlayerUpdateEvent
                                        (BasicPlayer.guild_id
                                           (AdvancedPlayer.base p))
                                        (default 0 (position st))
                                        (default 0 (time st))))]))
        | None =>
            _handle_message data now draw h = (inl (KeyError "state"), h)
        end).
Proof.
  intros Hop Hg. unfold _handle_message, item. rewrite Hop, Hg. cbn.
  split; intros h p Hp; rewrite Hp; destruct (state data) as [st|];
    reflexivity.
Qed.

Lemma player_update_reaches_the_player_witness :
  BasicPlayer._last_position
    <$> (players
           (snd (_handle_message
                   (MkMessage (Some "playerUpdate"%string) (Some 1)
                              (Some (MkState (Some 95000) None))
                              None None None None None None)
                   5000 0 (MkHub {[ 1 := tuned_player ]} None [])))
         !! 1)
  = Some 95000.
Proof.
  pose proof (proj1 (player_update_reaches_the_player
           (MkMessage (Some "playerUpdate"%string) (Some 1)
                      (Some (MkState (Some 95000) None))
                      None None None None None None)
           5000 0 1 eq_refl eq_refl)
           (MkHub {[ 1 := tuned_player ]} None []) tuned_player eq_refl) as H.
  cbn [state] in H. rewrite H. reflexivity.
Defined.

(** A queueing player with a track queued: the track-end message makes
    its handler raise, and the read loop ends there - the next frame is
    not handled and no reconnect is made. *)
Example listen_fails_on_auto_advance :
  _listen
    [Text (MkMessage (Some "event"%string) (Some 1) None
                     (Some "TrackEndEvent"%string) (Some "FINISHED"%string)
                     None None None None) 5000 0;
     Text (MkMessage (Some "stats"%string) None None None None None None
                     None None) 5001 0]
    [WebSocket.Established]
    (MkHub {[ 1 := queued_player ]} None [])
    (WebSocket.Mk (Some (WebSocket.Socket false)) [] None None false, [])
  = (Failed (FromPlayer TypeError),
     (MkHub (<[1 := queued_player]> {[ 1 := queued_player ]}) None
            [Dispatched (TrackEndEvent "1" (Some song) "FINISHED")],
      (WebSocket.Mk (Some (WebSocket.Socket false)) [] None None false, []))).
Proof. reflexivity. Qed.

End HubPlayers.

